(** * stopes.modules.speech.postprocess: filtering and de-duplication of
      mined audio pairs

    Shallow embedding of [PostProcessAudioModule] (file
    [src/stopes/modules/speech/postprocess.py]) and the properties its
    specification states about it.

    Conventions of the embedding.
    - Python [int] is [Z]; [len] results are [nat].
    - Python [float] values that are only ever {e compared} (scores,
      durations, overlaps, thresholds) are rationals [Q]: every finite
      binary64 value is a rational and IEEE comparison of finite values is
      exact, so [Qlt] decides [<] on them.  Non-finite values are outside
      the model.
    - numpy's [float64] statistics ([np.mean], [np.std]) come twice: over
      an interface [FloatOps] that leaves rounding and summation order to
      the implementation, for what holds of the block in any arithmetic;
      and over the real numbers [R], without rounding, where a property
      needs the values themselves.
    - An exception is a value of [PyError]; a method of the module is a
      function from the object state [Self] to a result and the state the
      object is left in (assignments to [self.x] made before a [raise]
      persist).
    - A [dict] is an association list in insertion order, which is the order
      Python iterates it in.
    - [log.info] / [log.warning] calls only print and are left out; the
      values they print are kept when computing them can raise. *)

From Stdlib Require Import String Ascii.
From Stdlib Require Import List ZArith QArith Bool Arith Lia.
From Stdlib Require Import Permutation Sorted.
From Stdlib Require Import Reals Lra.
Import ListNotations.

Local Open Scope string_scope.
Local Open Scope list_scope.
Local Open Scope Z_scope.

(** ** Exceptions and the method monad *)

Inductive PyError : Type :=
| ValueError (msg : string)
| AttributeError (obj attr : string)
| TypeError (msg : string)
| ZeroDivisionError
| KeyError (key : string)
| IndexError
| OtherError (msg : string).

Inductive result (A : Type) : Type :=
| Ok (a : A)
| Raise (e : PyError).
Arguments Ok {A} a.
Arguments Raise {A} e.

Definition rbind {A B} (r : result A) (k : A -> result B) : result B :=
  match r with
  | Ok a => k a
  | Raise e => Raise e
  end.

Fixpoint rmap {A B} (f : A -> result B) (l : list A) : result (list B) :=
  match l with
  | [] => Ok []
  | x :: l' =>
      rbind (f x) (fun y => rbind (rmap f l') (fun ys => Ok (y :: ys)))
  end.

(** ** Data model: [stopes.modules.speech.utils] *)

(** Modelled from the spec: the class [Audio] of [utils.py] is not part of
    the sources at hand.  The module reads three attributes of it, [path],
    [start] and [duration]; the spec's AudioSpan has exactly these. *)
Record Audio : Type := mkAudio {
  path : string;
  start : Z;
  duration : Q
}.

(** Modelled from the spec: [Text] of [utils.py]; a TextSpan carries only
    content, no path and no temporal extent. *)
Record Text : Type := mkText { content : string }.

(** What [split_mining_line] puts in the [src] and [tgt] columns. *)
Inductive Item : Type :=
| AudioItem (a : Audio)
| TextItem (t : Text).

Record MiningLineResult : Type := mkLine {
  score : Q;
  src : Item;
  tgt : Item
}.

Inductive IntersectMethods : Type := FRACTION | IOU.

(** [isinstance(x, Audio)] *)
Definition isinstance_Audio (x : Item) : bool :=
  match x with AudioItem _ => true | TextItem _ => false end.

(** [type(x)] as an f-string prints it. *)
Definition type_repr (x : Item) : string :=
  match x with
  | AudioItem _ => "<class 'stopes.modules.speech.utils.Audio'>"
  | TextItem _ => "<class 'stopes.modules.speech.utils.Text'>"
  end.

(** Attribute access [x.path], [x.start], [x.duration] on whatever
    [load_input] returned: a [Text] has none of them. *)
Definition getattr_Audio {A} (attr : string) (proj : Audio -> A) (x : Item)
  : result A :=
  match x with
  | AudioItem a => Ok (proj a)
  | TextItem _ => Raise (AttributeError "Text" attr)
  end.

Definition get_path : Item -> result string := getattr_Audio "path" path.
Definition get_start : Item -> result Z := getattr_Audio "start" start.
Definition get_duration : Item -> result Q :=
  getattr_Audio "duration" duration.

(** Comparison of two finite floats. *)
Definition Qltb (x y : Q) : bool := negb (Qle_bool y x).

(** ** Configuration and object state *)

Record Requirements : Type := mkRequirements {
  nodes : Z;
  tasks_per_node : Z;
  gpus_per_node : Z;
  cpus_per_task : Z;
  timeout_min : Z
}.

Record PostProcessAudioConfig : Type := mkConfig {
  output_dir : string;
  output_filename : string;
  mining_result_path : string;
  min_audio_length : Z;
  mining_threshold : Q;
  max_overlap : Q;
  overlap_method : IntersectMethods;
  sampling_factor : option Z;
  requirements : Requirements
}.

Definition default_requirements : Requirements :=
  mkRequirements 1 1 0 1 600.

(** The dataclass with its defaults; the five [MISSING] fields are the
    arguments. *)
Definition default_config (dir fname mining : string) (len : Z) (thr : Q)
  : PostProcessAudioConfig :=
  mkConfig dir fname mining len thr (2 # 10) FRACTION None
           default_requirements.

Inductive SrcAttr : Type := attr_src | attr_tgt.

(** The attributes [__init__] gives the module object. *)
Record Self : Type := mkSelf {
  config : PostProcessAudioConfig;
  self_output_dir : string;
  src_attr : SrcAttr;
  file_lines : nat;
  self_mining_threshold : Q;
  self_min_audio_length : Z
}.

Definition init (cfg : PostProcessAudioConfig) : Self :=
  mkSelf cfg (output_dir cfg) attr_src 0%nat
         (mining_threshold cfg) (min_audio_length cfg).

Definition set_src_attr (a : SrcAttr) (s : Self) : Self :=
  mkSelf (config s) (self_output_dir s) a (file_lines s)
         (self_mining_threshold s) (self_min_audio_length s).

Definition incr_file_lines (s : Self) : Self :=
  mkSelf (config s) (self_output_dir s) (src_attr s) (S (file_lines s))
         (self_mining_threshold s) (self_min_audio_length s).

(** A method: runs in an object state, leaves a result and a state. *)
Definition M (A : Type) : Type := Self -> result A * Self.

Definition ret {A} (a : A) : M A := fun s => (Ok a, s).
Definition raise {A} (e : PyError) : M A := fun s => (Raise e, s).
Definition bind {A B} (m : M A) (k : A -> M B) : M B :=
  fun s =>
    match m s with
    | (Ok a, s') => k a s'
    | (Raise e, s') => (Raise e, s')
    end.
Definition get_self : M Self := fun s => (Ok s, s).
Definition modify_self (f : Self -> Self) : M unit :=
  fun s => (Ok tt, f s).
Definition lift {A} (r : result A) : M A := fun s => (r, s).

Declare Scope py_scope.
Delimit Scope py_scope with py.
Notation "x <- m ;; k" := (bind m (fun x => k))
  (at level 61, m at next level, right associativity) : py_scope.
Notation "m ;; k" := (bind m (fun _ => k))
  (at level 61, right associativity) : py_scope.
Local Open Scope py_scope.

Fixpoint mapM {A B} (f : A -> M B) (l : list A) : M (list B) :=
  match l with
  | [] => ret []
  | x :: l' => y <- f x ;; ys <- mapM f l' ;; ret (y :: ys)
  end.

(** ** Methods that only read [self] *)

(** [getattr(mining_result, self.src_attr)] *)
Definition load_input (mining_result : MiningLineResult) : M Item :=
  self <- get_self ;;
  ret (match src_attr self with
       | attr_src => src mining_result
       | attr_tgt => tgt mining_result
       end).

Definition newline : string := String (ascii_of_nat 10) EmptyString.

Definition which_object_audio (s t : Item) (line : string) : result SrcAttr :=
  if isinstance_Audio s then Ok attr_src
  else if isinstance_Audio t then Ok attr_tgt
  else Raise (ValueError
         ("At least one item needs to be an audio sample. Received: "
          ++ type_repr s ++ " / " ++ type_repr t ++ newline
          ++ "Input: " ++ line)%string).

(** [line.score > self.mining_threshold and
     self.load_input(line).duration > self.min_audio_length]; [and] does not
    evaluate its right operand when the left one is false. *)
Definition line_passes_thresholds (line : MiningLineResult) : M bool :=
  self <- get_self ;;
  if Qltb (self_mining_threshold self) (score line) then
    it <- load_input line ;;
    d <- lift (get_duration it) ;;
    ret (Qltb (inject_Z (self_min_audio_length self)) d)
  else ret false.

(** ** Dictionaries in insertion order *)

Fixpoint dict_get {V} (k : string) (d : list (string * V)) : option V :=
  match d with
  | [] => None
  | (k', v) :: d' => if String.eqb k k' then Some v else dict_get k d'
  end.

(** [d[k] = v]: an existing key keeps its position, a new one goes last. *)
Fixpoint dict_set {V} (k : string) (v : V) (d : list (string * V))
  : list (string * V) :=
  match d with
  | [] => [(k, v)]
  | (k', v') :: d' =>
      if String.eqb k k' then (k, v) :: d' else (k', v') :: dict_set k v d'
  end.

Definition keys {V} (d : list (string * V)) : list string := map fst d.

Definition Sources : Type := list (string * list MiningLineResult).

Record RetentionStat : Type := mkStat {
  starting_lines : nat;
  kept_lines : nat
}.

Definition StatsDict : Type := list (string * RetentionStat).

(** ** [sorted(l, key=...)]

    Python's [sorted] is stable; insertion from the right is the executable
    model of it.  [sorted_contract] below is the documented contract, and
    [sorted_contract_unique] shows the contract fixes the output. *)

Fixpoint insert_by {A} (key : A -> Z) (x : A) (l : list A) : list A :=
  match l with
  | [] => [x]
  | y :: l' => if key x <=? key y then x :: l else y :: insert_by key x l'
  end.

Fixpoint sorted {A} (key : A -> Z) (l : list A) : list A :=
  match l with
  | [] => []
  | x :: l' => insert_by key x (sorted key l')
  end.

(** Ascending by key, and the elements of every key in their input order. *)
Definition sorted_contract {A} (key : A -> Z) (l out : list A) : Prop :=
  StronglySorted (fun x y => key x <= key y) out /\
  forall k, filter (fun x => key x =? k) out = filter (fun x => key x =? k) l.

(** [l[-1]] together with [l[:-1]]; [None] when [len(l) == 0]. *)
Definition unsnoc {A} (l : list A) : option (list A * A) :=
  match rev l with
  | [] => None
  | x :: r => Some (rev r, x)
  end.

(** ** The numpy calls of [run]

    [percentage_kept] is a one-dimensional [float64] array; its statistics
    are taken over [R]. *)

Definition np_sum (a : list R) : R := fold_right Rplus 0%R a.

Definition np_mean (a : list R) : R := (np_sum a / INR (length a))%R.

(** [np.std]: the square root of the mean of [abs(x - x.mean())**2]
    (population standard deviation, [ddof = 0]). *)
Definition np_std (a : list R) : R :=
  sqrt (np_mean (map (fun x => Rsqr (Rabs (x - np_mean a))) a)).

Definition Rltb (x y : R) : bool := if Rlt_dec x y then true else false.

(** The integer arrays [argwhere] and [squeeze] produce, by number of
    dimensions. *)
Inductive ndarray : Type :=
| Arr0 (x : nat)
| Arr1 (xs : list nat)
| Arr2 (rows : list (list nat)).

Fixpoint argwhere_from (i : nat) (mask : list bool) : list (list nat) :=
  match mask with
  | [] => []
  | b :: mask' =>
      if b then [i] :: argwhere_from (S i) mask'
      else argwhere_from (S i) mask'
  end.

(** [np.argwhere(mask)] for a one-dimensional [mask]: shape [(N, 1)], one
    row per true entry, holding its index. *)
Definition np_argwhere (mask : list bool) : ndarray :=
  Arr2 (argwhere_from 0 mask).

(** [a.squeeze()]: every axis of length one is removed.  Shape [(1, 1)]
    becomes [()], shape [(N, 1)] with [N <> 1] becomes [(N,)]. *)
Definition squeeze (a : ndarray) : ndarray :=
  match a with
  | Arr0 x => Arr0 x
  | Arr1 [x] => Arr0 x
  | Arr1 xs => Arr1 xs
  | Arr2 [[x]] => Arr0 x
  | Arr2 [row] => Arr1 row
  | Arr2 rows =>
      if forallb (fun row => Nat.eqb (length row) 1) rows
      then Arr1 (concat rows) else Arr2 rows
  end.

(** [for i in a]: numpy refuses to iterate over a zero-dimensional array.
    The rows of a two-dimensional array are not integers; [int(i)] of a row
    of length one is its entry. *)
Definition iter_int (a : ndarray) : result (list nat) :=
  match a with
  | Arr0 _ => Raise (TypeError "iteration over a 0-d array")
  | Arr1 xs => Ok xs
  | Arr2 rows =>
      rmap (fun row => match row with
                       | [x] => Ok x
                       | _ => Raise (TypeError
                           "only length-1 arrays can be converted to Python scalars")
                       end) rows
  end.

(** [float(filtering_stats[p]["kept_lines"]) /
     filtering_stats[p]["starting_lines"]] *)
Definition kept_ratio (filtering_stats : StatsDict) (p : string) : result R :=
  match dict_get p filtering_stats with
  | None => Raise (KeyError p)
  | Some st =>
      if Nat.eqb (starting_lines st) 0 then Raise ZeroDivisionError
      else Ok (INR (kept_lines st) / INR (starting_lines st))%R
  end.

Definition sigmas : R := 3%R.

(** The statistics block of [run], from [paths = ...] to [below_sigs]. *)
Definition below_sigs (filtering_stats : StatsDict) : result (list string) :=
  let paths := keys filtering_stats in
  rbind (rmap (kept_ratio filtering_stats) paths) (fun percentage_kept =>
  let avg := np_mean percentage_kept in
  let std := np_std percentage_kept in
  let mask := map (fun x => Rltb x (avg - sigmas * std)%R) percentage_kept in
  rbind (iter_int (squeeze (np_argwhere mask))) (fun idx =>
  rmap (fun i => match nth_error paths i with
                 | Some p => Ok p
                 | None => Raise IndexError
                 end) idx)).

(** A [pathlib.Path], kept as the expression that built it: [Path(s)] or
    [p / name].  What the join makes of an absolute [name] or of an empty
    directory is pathlib's business and is not interpreted here. *)
Inductive Path : Type :=
| PathOf (s : string)
| PathJoin (p : Path) (name : string).

(** *** The statistics block in the arithmetic of the code

    The block computes in [float64].  [FloatOps] is that arithmetic as an
    interface: the division that makes a ratio, [np.mean], [np.std],
    subtraction, multiplication, the conversion of the integer [sigmas]
    and the comparison.  [below_sigs_with] is the block over any such
    arithmetic, so that what is proved of it holds of numpy's rounding and
    summation order, whatever they are; [real_ops] is the exact arithmetic
    [below_sigs] above computes in. *)
Record FloatOps : Type := mkFloatOps {
  f64 : Type;
  true_div : nat -> nat -> f64;
  array_mean : list f64 -> f64;
  array_std : list f64 -> f64;
  f64_sub : f64 -> f64 -> f64;
  f64_mul : f64 -> f64 -> f64;
  f64_of_int : Z -> f64;
  f64_lt : f64 -> f64 -> bool
}.

Definition kept_ratio_with (A : FloatOps) (filtering_stats : StatsDict)
           (p : string) : result (f64 A) :=
  match dict_get p filtering_stats with
  | None => Raise (KeyError p)
  | Some st =>
      if Nat.eqb (starting_lines st) 0 then Raise ZeroDivisionError
      else Ok (true_div A (kept_lines st) (starting_lines st))
  end.

(** [percentage_kept < avg - sigmas * std], entry by entry. *)
Definition outlier_mask_with (A : FloatOps) (percentage_kept : list (f64 A))
  : list bool :=
  let avg := array_mean A percentage_kept in
  let std := array_std A percentage_kept in
  let sigmas := 3 in
  map (fun x =>
         f64_lt A x (f64_sub A avg (f64_mul A (f64_of_int A sigmas) std)))
      percentage_kept.

Definition below_sigs_with (A : FloatOps) (filtering_stats : StatsDict)
  : result (list string) :=
  let paths := keys filtering_stats in
  rbind (rmap (kept_ratio_with A filtering_stats) paths)
        (fun percentage_kept =>
  let mask := outlier_mask_with A percentage_kept in
  rbind (iter_int (squeeze (np_argwhere mask))) (fun idx =>
  rmap (fun i => match nth_error paths i with
                 | Some p => Ok p
                 | None => Raise IndexError
                 end) idx)).

Definition real_ops : FloatOps :=
  mkFloatOps R (fun k n => (INR k / INR n)%R) np_mean np_std
             Rminus Rmult IZR Rltb.

(** The ratio of an entry, and the ratios of the entries in order. *)
Definition ratio_with (A : FloatOps) (st : RetentionStat) : f64 A :=
  true_div A (kept_lines st) (starting_lines st).

Definition ratios_with (A : FloatOps) (stats : StatsDict) : list (f64 A) :=
  map (fun e => ratio_with A (snd e)) stats.

(** ** What the reading methods see of the object *)

(** The item [load_input] picks in state [s]. *)
Definition pick (s : Self) (r : MiningLineResult) : Item :=
  match src_attr s with
  | attr_src => src r
  | attr_tgt => tgt r
  end.

Definition audio_of (s : Self) (r : MiningLineResult) : option Audio :=
  match pick s r with
  | AudioItem a => Some a
  | TextItem _ => None
  end.

Definition has_audio (s : Self) (r : MiningLineResult) : Prop :=
  exists a, audio_of s r = Some a.

(** The sort key of a record whose audio item is present. *)
Definition start_key (s : Self) (r : MiningLineResult) : Z :=
  match audio_of s r with
  | Some a => start a
  | None => 0
  end.

(** The threshold test as a function of the state it reads. *)
Definition passes (s : Self) (r : MiningLineResult) : result bool :=
  if Qltb (self_mining_threshold s) (score r) then
    rbind (get_duration (pick s r))
          (fun d => Ok (Qltb (inject_Z (self_min_audio_length s)) d))
  else Ok false.

(** The fields the loop does not touch. *)
Definition frozen (s s' : Self) : Prop :=
  config s' = config s /\ self_output_dir s' = self_output_dir s /\
  src_attr s' = src_attr s /\
  self_mining_threshold s' = self_mining_threshold s /\
  self_min_audio_length s' = self_min_audio_length s.

Definition readonly {A} (m : M A) : Prop := forall s, snd (m s) = s.



(** ** Helpers for the statistics block *)

Fixpoint true_indices_from (i : nat) (mask : list bool) : list nat :=
  match mask with
  | [] => []
  | b :: mask' =>
      if b then i :: true_indices_from (S i) mask'
      else true_indices_from (S i) mask'
  end.

Definition ratio (st : RetentionStat) : R :=
  (INR (kept_lines st) / INR (starting_lines st))%R.

Definition ratios (stats : StatsDict) : list R :=
  map (fun e => ratio (snd e)) stats.

(** The comparison [percentage_kept < avg - sigmas * std], entry by entry. *)
Definition outlier_mask (pk : list R) : list bool :=
  map (fun x => Rltb x (np_mean pk - sigmas * np_std pk)%R) pk.

Definition zero_d_error : PyError := TypeError "iteration over a 0-d array".

(** The spec's reading of the outlier test, with a multiplier [k]. *)
Definition flagged_at (k : R) (stats : StatsDict) (p : string) : Prop :=
  exists st,
    In (p, st) stats /\
    (ratio st < np_mean (ratios stats) - k * np_std (ratios stats))%R.

(** ** Examples

    A stand-in for [utils.py], to run the module on small files.  A line is
    decoded by looking it up in a table of columns; an audio column is a
    path with start and end offsets, and its duration is the span divided
    by the sampling factor (one when none is given). *)

Inductive column : Type :=
| ColAudio (p : string) (st en : Z)
| ColText (c : string).

Definition parse_column (sf : option Z) (c : column) : Item :=
  match c with
  | ColAudio p st en =>
      AudioItem (mkAudio p st
        (inject_Z (en - st) /
         inject_Z (match sf with Some k => k | None => 1 end))%Q)
  | ColText c => TextItem (mkText c)
  end.

Definition table_split_mining_line
           (table : list (string * (Q * column * column)))
           (line : string) (sf : option Z) : result MiningLineResult :=
  match dict_get line table with
  | Some (sc, c1, c2) =>
      Ok (mkLine sc (parse_column sf c1) (parse_column sf c2))
  | None => Raise (ValueError "could not parse line")
  end.

Definition Qmin' (x y : Q) : Q := if Qle_bool x y then x else y.
Definition Qmax' (x y : Q) : Q := if Qle_bool x y then y else x.

(** The shared part of two spans over the length of the first
    ([FRACTION]) or over the length of their union ([IOU]). *)
Definition fraction_overlap (a1 a2 : Audio) (m : IntersectMethods) : Q :=
  let s1 := inject_Z (start a1) in
  let s2 := inject_Z (start a2) in
  let e1 := (s1 + duration a1)%Q in
  let e2 := (s2 + duration a2)%Q in
  let inter := Qmax' 0 (Qmin' e1 e2 - Qmax' s1 s2)%Q in
  match m with
  | FRACTION => (inter / duration a1)%Q
  | IOU => (inter / (duration a1 + duration a2 - inter))%Q
  end.

Definition example_self : Self :=
  init (default_config "out" "kept.tsv" "mined.tsv.gz" 1 (1 # 10)).

(** The group of the spec's example: starts 0, 5, 12, lengths 20, 5, 6,
    scores 0.5, 0.9, 0.8.  The lines are in file order 12, 0, 5. *)
Definition example_table : list (string * (Q * column * column)) :=
  [ ("0.8|a.wav 12 18|third", (8 # 10, ColAudio "a.wav" 12 18, ColText "third"));
    ("0.5|a.wav 0 20|first", (5 # 10, ColAudio "a.wav" 0 20, ColText "first"));
    ("0.9|a.wav 5 10|second", (9 # 10, ColAudio "a.wav" 5 10, ColText "second"));
    ("0.7|hello|world", (7 # 10, ColText "hello", ColText "world")) ].

Definition example_split := table_split_mining_line example_table.

Definition example_file : list string :=
  [ "0.8|a.wav 12 18|third"; "0.5|a.wav 0 20|first";
    "0.9|a.wav 5 10|second" ].

Definition rec_first : MiningLineResult :=
  mkLine (5 # 10) (parse_column None (ColAudio "a.wav" 0 20))
         (TextItem (mkText "first")).
Definition rec_second : MiningLineResult :=
  mkLine (9 # 10) (parse_column None (ColAudio "a.wav" 5 10))
         (TextItem (mkText "second")).
Definition rec_third : MiningLineResult :=
  mkLine (8 # 10) (parse_column None (ColAudio "a.wav" 12 18))
         (TextItem (mkText "third")).

Definition example_sources : Sources :=
  [ ("a.wav", [rec_third; rec_first; rec_second]) ].

(** The state [load_file] leaves after the three lines (it counts four). *)
Definition example_loaded : Self :=
  incr_file_lines (incr_file_lines (incr_file_lines
    (incr_file_lines example_self))).

(** A file whose second line has no audio item. *)
Definition text_file : list string :=
  [ "0.5|a.wav 0 20|first"; "0.7|hello|world" ].

(** A file whose first line has no audio item. *)
Definition text_first_file : list string :=
  [ "0.7|hello|world"; "0.5|a.wav 0 20|first" ].

(** Eleven audio files: ten with one segment each, one with two segments
    that overlap. *)
Definition outlier_table : list (string * (Q * column * column)) :=
  [ ("0.9|f0.wav 0 10|t", (9 # 10, ColAudio "f0.wav" 0 10, ColText "t"));
    ("0.9|f1.wav 0 10|t", (9 # 10, ColAudio "f1.wav" 0 10, ColText "t"));
    ("0.9|f2.wav 0 10|t", (9 # 10, ColAudio "f2.wav" 0 10, ColText "t"));
    ("0.9|f3.wav 0 10|t", (9 # 10, ColAudio "f3.wav" 0 10, ColText "t"));
    ("0.9|f4.wav 0 10|t", (9 # 10, ColAudio "f4.wav" 0 10, ColText "t"));
    ("0.9|f5.wav 0 10|t", (9 # 10, ColAudio "f5.wav" 0 10, ColText "t"));
    ("0.9|f6.wav 0 10|t", (9 # 10, ColAudio "f6.wav" 0 10, ColText "t"));
    ("0.9|f7.wav 0 10|t", (9 # 10, ColAudio "f7.wav" 0 10, ColText "t"));
    ("0.9|f8.wav 0 10|t", (9 # 10, ColAudio "f8.wav" 0 10, ColText "t"));
    ("0.9|f9.wav 0 10|t", (9 # 10, ColAudio "f9.wav" 0 10, ColText "t"));
    ("0.9|k.wav 0 10|t", (9 # 10, ColAudio "k.wav" 0 10, ColText "t"));
    ("0.8|k.wav 2 12|t", (8 # 10, ColAudio "k.wav" 2 12, ColText "t")) ].

Definition outlier_split := table_split_mining_line outlier_table.

Definition outlier_file : list string := keys outlier_table.

Definition outlier_stats : StatsDict :=
  [ ("f0.wav", mkStat 1 1); ("f1.wav", mkStat 1 1); ("f2.wav", mkStat 1 1);
    ("f3.wav", mkStat 1 1); ("f4.wav", mkStat 1 1); ("f5.wav", mkStat 1 1);
    ("f6.wav", mkStat 1 1); ("f7.wav", mkStat 1 1); ("f8.wav", mkStat 1 1);
    ("f9.wav", mkStat 1 1); ("k.wav", mkStat 2 1) ].

(** Two files, one keeping everything, one keeping half. *)
Definition two_stats : StatsDict :=
  [ ("a.wav", mkStat 1 1); ("b.wav", mkStat 2 1) ].

(** Both groups keep everything: no deviation. *)
Definition even_stats : StatsDict :=
  [ ("a.wav", mkStat 1 1); ("b.wav", mkStat 3 3) ].

Definition rec_text : MiningLineResult :=
  mkLine (7 # 10) (TextItem (mkText "hello")) (TextItem (mkText "world")).

(** ** Vocabulary for the properties of the loops *)

(** [l1] is [l2] with some elements left out, the order kept. *)
Inductive subseq {A : Type} : list A -> list A -> Prop :=
| subseq_nil : subseq [] []
| subseq_skip x l1 l2 : subseq l1 l2 -> subseq l1 (x :: l2)
| subseq_take x l1 l2 : subseq l1 l2 -> subseq (x :: l1) (x :: l2).

(** [sources.get(p, [])] *)
Definition group_or_empty (p : string) (d : Sources)
  : list MiningLineResult :=
  match dict_get p d with
  | Some l => l
  | None => []
  end.

(** The audio item of [r] is there and its path is [p]. *)
Definition path_is (s : Self) (p : string) (r : MiningLineResult) : bool :=
  match pick s r with
  | AudioItem a => String.eqb (path a) p
  | TextItem _ => false
  end.

(** The threshold test returned [True]. *)
Definition passes_true (s : Self) (r : MiningLineResult) : bool :=
  match passes s r with
  | Ok true => true
  | _ => false
  end.

(** [a[mask]] for a boolean mask. *)
Fixpoint select {A : Type} (mask : list bool) (l : list A) : list A :=
  match mask, l with
  | b :: mask', x :: l' => if b then x :: select mask' l' else select mask' l'
  | _, _ => []
  end.

(** The statistics entry [postprocess] writes for a group. *)
Definition stat_of (r : list MiningLineResult * list MiningLineResult)
  : RetentionStat :=
  mkStat (length (fst r)) (length (snd r)).

(** The module with a stricter configuration, and with one no record of
    the example file satisfies. *)
Definition strict_self : Self :=
  init (default_config "out" "kept.tsv" "mined.tsv.gz" 3 (6 # 10)).

Definition closed_self : Self :=
  init (default_config "out" "kept.tsv" "mined.tsv.gz" 1 (95 # 100)).

Definition closed_loaded : Self :=
  incr_file_lines (incr_file_lines (incr_file_lines
    (incr_file_lines closed_self))).

(** Twenty-two files: twenty keep their only segment, two keep one of
    two. *)
Definition pair_stats : StatsDict :=
  [ ("g00.wav", mkStat 1 1); ("g01.wav", mkStat 1 1);
    ("g02.wav", mkStat 1 1); ("g03.wav", mkStat 1 1);
    ("g04.wav", mkStat 1 1); ("g05.wav", mkStat 1 1);
    ("g06.wav", mkStat 1 1); ("g07.wav", mkStat 1 1);
    ("g08.wav", mkStat 1 1); ("g09.wav", mkStat 1 1);
    ("g10.wav", mkStat 1 1); ("g11.wav", mkStat 1 1);
    ("g12.wav", mkStat 1 1); ("g13.wav", mkStat 1 1);
    ("g14.wav", mkStat 1 1); ("g15.wav", mkStat 1 1);
    ("g16.wav", mkStat 1 1); ("g17.wav", mkStat 1 1);
    ("g18.wav", mkStat 1 1); ("g19.wav", mkStat 1 1);
    ("k1.wav", mkStat 2 1); ("k2.wav", mkStat 2 1) ].


(** ** The module *)

Section PostProcessAudioModule.

(** The two functions imported from [utils.py], which is not among the
    sources: the line parser and the overlap measure. *)
Variable split_mining_line : string -> option Z -> result MiningLineResult.
Variable utils_compute_overlap : Audio -> Audio -> IntersectMethods -> Q.

(** *** [load_file] *)

Definition add_to_sources (p : string) (mining_result : MiningLineResult)
           (sources : Sources) : Sources :=
  match dict_get p sources with
  | Some l => dict_set p (l ++ [mining_result]) sources
  | None => dict_set p [mining_result] sources
  end.

(** The [while line:] loop; [lines] is what [readline] still has to
    deliver, the current line first. *)
Fixpoint load_loop (lines : list string) (sources : Sources)
         (passing_filters : nat) : M (Sources * nat) :=
  match lines with
  | [] => ret (sources, passing_filters)
  | line :: rest =>
      modify_self incr_file_lines ;;
      mining_result <- lift (split_mining_line line None) ;;
      it <- load_input mining_result ;;
      p <- lift (get_path it) ;;
      ok <- line_passes_thresholds mining_result ;;
      if (ok : bool) then
        load_loop rest (add_to_sources p mining_result sources)
                  (S passing_filters)
      else load_loop rest sources passing_filters
  end.

Definition load_file (f : list string) : M Sources :=
  match f with
  | [] =>
      self <- get_self ;;
      raise (ValueError
               ("File " ++ mining_result_path (config self)
                ++ " is empty.")%string)
  | line :: _ =>
      modify_self incr_file_lines ;;
      self <- get_self ;;
      mining_result <-
        lift (split_mining_line line (sampling_factor (config self))) ;;
      a <- lift (which_object_audio (src mining_result)
                                    (tgt mining_result) line) ;;
      modify_self (set_src_attr a) ;;
      r <- load_loop f [] 0%nat ;;
      ret (fst r)
  end.

(** *** [postprocess] *)

(** [self.compute_overlap(audio1, audio2)].  The utility works on the
    attributes of two spans; handed a [Text] it fails on the first attribute
    it reads, taken here to be [start].  Inside [postprocess] that case does
    not arise: the sort has read [start] of every record before. *)
Definition compute_overlap (audio1 audio2 : Item) : M Q :=
  self <- get_self ;;
  a1 <- lift (getattr_Audio "start" (fun a => a) audio1) ;;
  a2 <- lift (getattr_Audio "start" (fun a => a) audio2) ;;
  ret (utils_compute_overlap a1 a2 (overlap_method (config self))).

(** [sorted(line_list, key=lambda x: self.load_input(x).start)]: the keys
    are computed first, left to right. *)
Definition sort_lines (line_list : list MiningLineResult)
  : M (list MiningLineResult) :=
  ks <- mapM (fun x => it <- load_input x ;; lift (get_start it))
             line_list ;;
  ret (map snd (sorted fst (combine ks line_list))).

(** One iteration of [for line in line_list]. *)
Definition dedup_step (kept : list MiningLineResult)
           (line : MiningLineResult) : M (list MiningLineResult) :=
  match unsnoc kept with
  | None => ret (kept ++ [line])
  | Some (front, last_kept) =>
      i1 <- load_input last_kept ;;
      i2 <- load_input line ;;
      overlap <- compute_overlap i1 i2 ;;
      self <- get_self ;;
      if Qltb (max_overlap (config self)) overlap then
        if Qltb (score last_kept) (score line) then ret (front ++ [line])
        else ret kept
      else ret (kept ++ [line])
  end.

Fixpoint dedup_scan (line_list kept : list MiningLineResult)
  : M (list MiningLineResult) :=
  match line_list with
  | [] => ret kept
  | line :: rest => kept' <- dedup_step kept line ;; dedup_scan rest kept'
  end.

(** The body of the loop over groups, up to the kept lines. *)
Definition dedup_group (line_list : list MiningLineResult)
  : M (list MiningLineResult * list MiningLineResult) :=
  line_list' <- sort_lines line_list ;;
  kept <- dedup_scan line_list' [] ;;
  ret (line_list', kept).

Fixpoint postprocess_loop (items : Sources)
         (valid_audio : list MiningLineResult) (filtering_stats : StatsDict)
  : M (list MiningLineResult * StatsDict) :=
  match items with
  | [] => ret (valid_audio, filtering_stats)
  | (p, line_list) :: rest =>
      r <- dedup_group line_list ;;
      postprocess_loop rest (valid_audio ++ snd r)
        (dict_set p (mkStat (length (fst r)) (length (snd r)))
                  filtering_stats)
  end.

Definition postprocess (sources : Sources)
  : M (list MiningLineResult * StatsDict) :=
  postprocess_loop sources [] [].

(** *** [run] *)

(** The last loop of [run]; the sum is only logged. *)
Fixpoint total_src_time (valid_lines : list MiningLineResult) (acc : Q)
  : M Q :=
  match valid_lines with
  | [] => ret acc
  | valid :: rest =>
      it <- load_input valid ;;
      d <- lift (get_duration it) ;;
      total_src_time rest (acc + d)%Q
  end.

(** What a call of [run] leaves behind: the value returned or the
    exception raised, the file [save_results] wrote if the run got that
    far (its path and the records printed to it, in order), the paths the
    warning lists when it is computed, and the object state. *)
Record RunOutcome : Type := mkOutcome {
  returned : result Path;
  written : option (Path * list MiningLineResult);
  warned : option (list string);
  final_self : Self
}.

(** [self.config.output_dir / self.config.output_filename] *)
Definition out_path (self : Self) : Path :=
  PathJoin (PathOf (output_dir (config self)))
           (output_filename (config self)).

Definition run (f : list string) (self : Self) : RunOutcome :=
  match load_file f self with
  | (Raise e, s1) => mkOutcome (Raise e) None None s1
  | (Ok sources, s1) =>
      match postprocess sources s1 with
      | (Raise e, s2) => mkOutcome (Raise e) None None s2
      | (Ok (valid_lines, filtering_stats), s2) =>
          let outfile := out_path s2 in
          let w := Some (outfile, valid_lines) in
          match below_sigs filtering_stats with
          | Raise e => mkOutcome (Raise e) w None s2
          | Ok bs =>
              match total_src_time valid_lines 0%Q s2 with
              | (Raise e, s3) => mkOutcome (Raise e) w (Some bs) s3
              | (Ok _, s3) => mkOutcome (Ok outfile) w (Some bs) s3
              end
          end
      end
  end.

(** *** The scan of one group, as the spec words it *)

Definition overlap_of (s : Self) (a1 a2 : Audio) : Q :=
  utils_compute_overlap a1 a2 (overlap_method (config s)).

(** The spec's step 3, as a relation between the kept list before a
    record [r] and after it: only the last kept element [k] takes part,
    the elements [pre] before it are carried over untouched. *)
Inductive spec_step (s : Self)
  : list MiningLineResult -> MiningLineResult -> list MiningLineResult
    -> Prop :=
| spec_first r : spec_step s [] r [r]
| spec_append pre k r ak ar :
    audio_of s k = Some ak -> audio_of s r = Some ar ->
    (overlap_of s ak ar <= max_overlap (config s))%Q ->
    spec_step s (pre ++ [k]) r (pre ++ [k; r])
| spec_replace pre k r ak ar :
    audio_of s k = Some ak -> audio_of s r = Some ar ->
    (max_overlap (config s) < overlap_of s ak ar)%Q ->
    (score k < score r)%Q ->
    spec_step s (pre ++ [k]) r (pre ++ [r])
| spec_discard pre k r ak ar :
    audio_of s k = Some ak -> audio_of s r = Some ar ->
    (max_overlap (config s) < overlap_of s ak ar)%Q ->
    ~ (score k < score r)%Q ->
    spec_step s (pre ++ [k]) r (pre ++ [k]).

(** One pass over the records, each seen once. *)
Inductive spec_scan (s : Self)
  : list MiningLineResult -> list MiningLineResult
    -> list MiningLineResult -> Prop :=
| scan_done kept : spec_scan s [] kept kept
| scan_next r rest kept kept' out :
    spec_step s kept r kept' -> spec_scan s rest kept' out ->
    spec_scan s (r :: rest) kept out.

(** *** Invariants of the two loops *)

(** Every entry of the statistics was written for some group, from the
    sizes of that group's sorted list and kept list. *)
Definition stat_of_group (s : Self) (sources : Sources)
           (e : string * RetentionStat) : Prop :=
  exists line_list line_list' kept,
    In (fst e, line_list) sources /\
    dedup_group line_list s = (Ok (line_list', kept), s) /\
    starting_lines (snd e) = length line_list /\
    kept_lines (snd e) = length kept.

(** What holds of a record stored under key [p]. *)
Definition grouped (s : Self) (f : list string) (p : string)
           (r : MiningLineResult) : Prop :=
  (exists a, pick s r = AudioItem a /\ path a = p) /\
  passes s r = Ok true /\
  exists line, In line f /\ split_mining_line line None = Ok r.

Definition groups_ok (s : Self) (f : list string) (sources : Sources)
  : Prop :=
  Forall (fun e => Forall (grouped s f (fst e)) (snd e)) sources.


(** ** Properties *)

(** *** Comparisons and the reading methods *)

Lemma Qltb_lt x y : Qltb x y = true <-> (x < y)%Q.
Proof.
  unfold Qltb. rewrite negb_true_iff, <- not_true_iff_false, Qle_bool_iff.
  split; [apply Qnot_le_lt | apply Qlt_not_le].
Qed.

Lemma Qltb_ge x y : Qltb x y = false <-> (y <= x)%Q.
Proof.
  unfold Qltb. rewrite negb_false_iff. apply Qle_bool_iff.
Qed.

Lemma load_input_eq r s : load_input r s = (Ok (pick s r), s).
Proof. reflexivity. Qed.

Lemma audio_of_pick s r a : audio_of s r = Some a -> pick s r = AudioItem a.
Proof.
  unfold audio_of. destruct (pick s r); congruence.
Qed.

Lemma line_passes_thresholds_audio r s a :
  audio_of s r = Some a ->
  line_passes_thresholds r s =
  (Ok (Qltb (self_mining_threshold s) (score r) &&
       Qltb (inject_Z (self_min_audio_length s)) (duration a)), s).
Proof.
  intros Ha. apply audio_of_pick in Ha. unfold pick in Ha.
  cbv [line_passes_thresholds bind get_self load_input ret lift].
  destruct (Qltb (self_mining_threshold s) (score r)); simpl.
  - rewrite Ha. reflexivity.
  - reflexivity.
Qed.

(** C5. The threshold filter accepts a record exactly when its score is
    strictly above the score threshold and the duration of its audio item
    is strictly above the minimal length; a record sitting on either
    threshold is rejected. *)
Theorem line_passes_thresholds_iff :
  forall (self : Self) (line : MiningLineResult) (a : Audio),
    fst (load_input line self) = Ok (AudioItem a) ->
    exists b : bool,
      line_passes_thresholds line self = (Ok b, self) /\
      (b = true <->
         (self_mining_threshold self < score line)%Q /\
         (inject_Z (self_min_audio_length self) < duration a)%Q) /\
      ((score line == self_mining_threshold self)%Q -> b = false) /\
      ((duration a == inject_Z (self_min_audio_length self))%Q ->
       b = false).
Proof using.
  intros self line a Hin.
  rewrite load_input_eq in Hin. simpl in Hin.
  assert (Ha : audio_of self line = Some a).
  { unfold audio_of. injection Hin as ->. reflexivity. }
  eexists. split; [apply (line_passes_thresholds_audio _ _ _ Ha)|].
  split; [|split].
  - rewrite andb_true_iff, !Qltb_lt. apply iff_refl.
  - intros E. apply andb_false_iff. left.
    apply Qltb_ge. rewrite E. apply Qle_refl.
  - intros E. apply andb_false_iff. right.
    apply Qltb_ge. rewrite E. apply Qle_refl.
Qed.

(** *** The stable sort *)

Section Sorting.
Context {A : Type} (key : A -> Z).

Let le_key (x y : A) : Prop := key x <= key y.

Lemma insert_by_perm x l : Permutation (x :: l) (insert_by key x l).
Proof.
  induction l as [|y l IH]; simpl.
  - apply Permutation_refl.
  - destruct (key x <=? key y).
    + apply Permutation_refl.
    + eapply perm_trans; [apply perm_swap|].
      apply perm_skip, IH.
Qed.

Lemma sorted_perm l : Permutation l (sorted key l).
Proof.
  induction l as [|x l IH]; simpl.
  - apply perm_nil.
  - eapply perm_trans; [apply perm_skip, IH|apply insert_by_perm].
Qed.

Lemma sorted_length l : length (sorted key l) = length l.
Proof. symmetry. apply Permutation_length, sorted_perm. Qed.

Lemma insert_by_sorted x l :
  StronglySorted le_key l -> StronglySorted le_key (insert_by key x l).
Proof.
  induction 1 as [|y l Hs IH Hall]; simpl.
  - constructor; constructor.
  - destruct (key x <=? key y) eqn:E.
    + apply Z.leb_le in E.
      constructor; [constructor; assumption|].
      constructor; [exact E|].
      eapply Forall_impl; [|exact Hall].
      intros z Hz. unfold le_key in *. lia.
    + apply Z.leb_gt in E.
      constructor; [exact IH|].
      eapply Permutation_Forall; [apply insert_by_perm|].
      constructor; [unfold le_key; lia | exact Hall].
Qed.

Lemma sorted_sorted l : StronglySorted le_key (sorted key l).
Proof.
  induction l; simpl; [constructor | apply insert_by_sorted; assumption].
Qed.

(** The inserted element lands in front of the elements of its key. *)
Lemma insert_by_filter x l k :
  filter (fun y => key y =? k) (insert_by key x l) =
  filter (fun y => key y =? k) (x :: l).
Proof.
  induction l as [|y l IH]; [reflexivity|].
  simpl insert_by. destruct (key x <=? key y) eqn:E; [reflexivity|].
  apply Z.leb_gt in E.
  change (filter (fun y0 => key y0 =? k) (y :: insert_by key x l))
    with (if key y =? k
          then y :: filter (fun y0 => key y0 =? k) (insert_by key x l)
          else filter (fun y0 => key y0 =? k) (insert_by key x l)).
  rewrite IH. simpl.
  destruct (key x =? k) eqn:Ex, (key y =? k) eqn:Ey; try reflexivity.
  apply Z.eqb_eq in Ex, Ey. lia.
Qed.

Lemma sorted_stable l k :
  filter (fun y => key y =? k) (sorted key l) =
  filter (fun y => key y =? k) l.
Proof.
  induction l as [|x l IH]; [reflexivity|].
  simpl sorted. rewrite insert_by_filter. simpl. rewrite IH. reflexivity.
Qed.

Lemma sorted_meets_contract l : sorted_contract key l (sorted key l).
Proof.
  split; [apply sorted_sorted | apply sorted_stable].
Qed.

(** The contract leaves no freedom: two outputs that meet it for the
    same input are the same list. *)
Lemma sorted_contract_unique l out1 out2 :
  sorted_contract key l out1 -> sorted_contract key l out2 -> out1 = out2.
Proof.
  intros [S1 F1] [S2 F2].
  assert (F : forall k, filter (fun y => key y =? k) out1 =
                        filter (fun y => key y =? k) out2)
    by (intro k; rewrite F1, F2; reflexivity).
  clear F1 F2 l. revert out2 S2 F.
  induction S1 as [|x t1 S1 IH H1]; intros out2 S2 F.
  - destruct out2 as [|y t2]; [reflexivity|].
    specialize (F (key y)). simpl in F. rewrite Z.eqb_refl in F.
    discriminate.
  - destruct S2 as [|y t2 S2 H2].
    + specialize (F (key x)). simpl in F. rewrite Z.eqb_refl in F.
      discriminate.
    + assert (Hxy : key x = key y).
      { assert (In x (filter (fun z => key z =? key x) (y :: t2))) as Hx.
        { rewrite <- F. simpl. rewrite Z.eqb_refl. left. reflexivity. }
        assert (In y (filter (fun z => key z =? key y) (x :: t1))) as Hy.
        { rewrite F. simpl. rewrite Z.eqb_refl. left. reflexivity. }
        apply filter_In in Hx, Hy. destruct Hx as [Hx _], Hy as [Hy _].
        rewrite Forall_forall in H1, H2.
        assert (key y <= key x)
          by (destruct Hx as [<-|Hx]; [lia | apply (H2 _ Hx)]).
        assert (key x <= key y)
          by (destruct Hy as [<-|Hy]; [lia | apply (H1 _ Hy)]).
        lia. }
      assert (Hhd := F (key x)). simpl in Hhd.
      rewrite Z.eqb_refl in Hhd.
      rewrite <- Hxy, Z.eqb_refl in Hhd.
      injection Hhd as -> Htl.
      f_equal. apply IH; [exact S2|].
      intro k. specialize (F k). simpl in F.
      destruct (key y =? k); [injection F as F|]; exact F.
Qed.

(** Sorting the decorated list and dropping the keys is sorting by the
    key. *)
Lemma insert_by_decorated (p : Z * A) (L : list (Z * A)) :
  fst p = key (snd p) ->
  Forall (fun q => fst q = key (snd q)) L ->
  map snd (insert_by fst p L) = insert_by key (snd p) (map snd L) /\
  Forall (fun q => fst q = key (snd q)) (insert_by fst p L).
Proof.
  intros Hp. induction 1 as [|q L Hq HL IH]; simpl.
  - split; [reflexivity | repeat constructor; exact Hp].
  - rewrite <- Hp, <- Hq. destruct (fst p <=? fst q).
    + split; [reflexivity | repeat constructor; assumption].
    + destruct IH as [IH1 IH2]. simpl. rewrite IH1.
      split; [reflexivity | constructor; assumption].
Qed.

Lemma sorted_decorated l :
  map snd (sorted fst (combine (map key l) l)) = sorted key l /\
  Forall (fun q => fst q = key (snd q))
         (sorted fst (combine (map key l) l)).
Proof.
  induction l as [|x l [IH1 IH2]]; simpl.
  - split; [reflexivity | constructor].
  - destruct (insert_by_decorated (key x, x) _ eq_refl IH2) as [E1 E2].
    rewrite E1, IH1. split; [reflexivity | exact E2].
Qed.

End Sorting.

(** *** The scan of one group *)

Lemma unsnoc_snoc {A} (l : list A) (x : A) : unsnoc (l ++ [x]) = Some (l, x).
Proof.
  unfold unsnoc. rewrite rev_app_distr. simpl. rewrite rev_involutive.
  reflexivity.
Qed.

Lemma unsnoc_cases {A} (l : list A) :
  (l = [] /\ unsnoc l = None) \/
  (exists front x, l = front ++ [x] /\ unsnoc l = Some (front, x)).
Proof.
  destruct l as [|a l] using rev_ind.
  - left. split; reflexivity.
  - right. exists l, a. split; [reflexivity | apply unsnoc_snoc].
Qed.

(** What one iteration computes when both spans are there. *)
Lemma dedup_step_audio pre k r s ak ar :
  audio_of s k = Some ak -> audio_of s r = Some ar ->
  dedup_step (pre ++ [k]) r s =
  (Ok (if Qltb (max_overlap (config s)) (overlap_of s ak ar)
       then if Qltb (score k) (score r) then pre ++ [r] else pre ++ [k]
       else (pre ++ [k]) ++ [r]), s).
Proof.
  intros Hk Hr. apply audio_of_pick in Hk, Hr. unfold pick in Hk, Hr.
  unfold dedup_step. rewrite unsnoc_snoc.
  cbv [bind get_self load_input ret lift compute_overlap].
  rewrite Hk, Hr. simpl. unfold overlap_of.
  destruct (Qltb _ _); [destruct (Qltb _ _)|]; reflexivity.
Qed.

(** The kept elements before the last one play no role in an iteration:
    they are neither read nor changed. *)
Lemma dedup_step_last_only pre k r s :
  dedup_step (pre ++ [k]) r s =
  (rbind (fst (dedup_step [k] r s)) (fun out => Ok (pre ++ out)), s).
Proof.
  unfold dedup_step. rewrite unsnoc_snoc.
  change (unsnoc [k]) with (Some (@nil MiningLineResult, k)).
  cbv [bind get_self load_input ret lift compute_overlap].
  destruct (match src_attr s with attr_src => src k | attr_tgt => tgt k end);
    simpl; [|reflexivity].
  destruct (match src_attr s with attr_src => src r | attr_tgt => tgt r end);
    simpl; [|reflexivity].
  destruct (Qltb _ _); [destruct (Qltb _ _)|]; simpl;
    rewrite <- ?app_assoc; reflexivity.
Qed.

Lemma dedup_step_spec kept r s :
  Forall (has_audio s) kept -> has_audio s r ->
  exists kept',
    dedup_step kept r s = (Ok kept', s) /\
    spec_step s kept r kept' /\
    Forall (has_audio s) kept' /\
    (length kept' <= S (length kept))%nat.
Proof.
  intros Hkept [ar Har].
  destruct (unsnoc_cases kept) as [[-> _]|(pre & k & -> & _)].
  - exists [r]. repeat split.
    + constructor.
    + repeat constructor. exists ar. exact Har.
    + simpl. lia.
  - apply Forall_app in Hkept. destruct Hkept as [Hpre Hk].
    inversion Hk as [|? ? [ak Hak] _]; subst.
    rewrite (dedup_step_audio _ _ _ _ _ _ Hak Har).
    eexists. split; [reflexivity|].
    destruct (Qltb (max_overlap (config s)) (overlap_of s ak ar)) eqn:Eo.
    + apply Qltb_lt in Eo.
      destruct (Qltb (score k) (score r)) eqn:Es.
      * apply Qltb_lt in Es. split; [|split].
        -- eapply spec_replace; eassumption.
        -- apply Forall_app. split; [exact Hpre|].
           repeat constructor. exists ar. exact Har.
        -- rewrite !length_app. simpl. lia.
      * apply Qltb_ge in Es. split; [|split].
        -- eapply spec_discard; try eassumption.
           apply Qle_not_lt. exact Es.
        -- apply Forall_app. split; assumption.
        -- lia.
    + apply Qltb_ge in Eo. split; [|split].
      * rewrite <- app_assoc. eapply spec_append; eassumption.
      * apply Forall_app. split; [apply Forall_app; split; assumption|].
        repeat constructor. exists ar. exact Har.
      * rewrite !length_app. simpl. lia.
Qed.

Lemma dedup_scan_spec line_list : forall kept s,
  Forall (has_audio s) line_list -> Forall (has_audio s) kept ->
  exists out,
    dedup_scan line_list kept s = (Ok out, s) /\
    spec_scan s line_list kept out /\
    Forall (has_audio s) out /\
    (length out <= length kept + length line_list)%nat.
Proof.
  induction line_list as [|r rest IH]; intros kept s Hl Hk.
  - exists kept. repeat split; [constructor | assumption | simpl; lia].
  - inversion Hl as [|? ? Hr Hrest]; subst.
    destruct (dedup_step_spec kept r s Hk Hr) as (kept' & E & St & Hk' & Len).
    destruct (IH kept' s Hrest Hk') as (out & E' & Sc & Ho & Len').
    exists out. simpl. unfold bind. rewrite E.
    repeat split; [exact E' | econstructor; eassumption | exact Ho|].
    simpl. lia.
Qed.

Lemma mapM_cons {A B} (f : A -> M B) x l s :
  mapM f (x :: l) s =
  match f x s with
  | (Ok y, s') =>
      match mapM f l s' with
      | (Ok ys, s'') => (Ok (y :: ys), s'')
      | (Raise e, s'') => (Raise e, s'')
      end
  | (Raise e, s') => (Raise e, s')
  end.
Proof.
  simpl. unfold bind. destruct (f x s) as [[y|e] s']; [|reflexivity].
  destruct (mapM f l s') as [[ys|e] s'']; reflexivity.
Qed.

Lemma sort_keys l s :
  Forall (has_audio s) l ->
  mapM (fun x => it <- load_input x ;; lift (get_start it)) l s =
  (Ok (map (start_key s) l), s).
Proof.
  induction 1 as [|r l [a Ha] _ IH]; [reflexivity|].
  rewrite mapM_cons. unfold bind at 1. rewrite load_input_eq.
  rewrite (audio_of_pick _ _ _ Ha). unfold lift at 1. simpl get_start.
  rewrite IH. simpl map. unfold start_key at 2. rewrite Ha. reflexivity.
Qed.

Lemma sort_lines_audio l s :
  Forall (has_audio s) l ->
  sort_lines l s = (Ok (sorted (start_key s) l), s).
Proof.
  intros H. unfold sort_lines. unfold bind at 1. rewrite (sort_keys _ _ H).
  unfold ret. destruct (sorted_decorated (start_key s) l) as [-> _].
  reflexivity.
Qed.

(** C1. For a group whose records all carry their audio item, the
    de-duplicator sorts the records by the start of the audio item,
    ascending and stably, then makes one pass in which each record is
    appended (kept list empty, or overlap with the last kept element at
    most [max_overlap]), replaces the last kept element (overlap above
    [max_overlap] and strictly higher score) or is dropped; the elements
    before the last kept one are never looked at. *)
Theorem dedup_group_spec :
  forall (s : Self) (line_list : list MiningLineResult),
    Forall (has_audio s) line_list ->
    exists line_list' kept,
      dedup_group line_list s = (Ok (line_list', kept), s) /\
      Permutation line_list line_list' /\
      sorted_contract (start_key s) line_list line_list' /\
      spec_scan s line_list' [] kept /\
      (forall pre k r,
          dedup_step (pre ++ [k]) r s =
          (rbind (fst (dedup_step [k] r s)) (fun out => Ok (pre ++ out)),
           s)).
Proof.
  intros s l Hl.
  assert (Hs : Forall (has_audio s) (sorted (start_key s) l)).
  { eapply Permutation_Forall; [apply sorted_perm | exact Hl]. }
  destruct (dedup_scan_spec _ [] s Hs (Forall_nil _))
    as (kept & E & Sc & _ & _).
  exists (sorted (start_key s) l), kept.
  split; [|split; [|split; [|split]]].
  - unfold dedup_group, bind. rewrite (sort_lines_audio _ _ Hl), E.
    reflexivity.
  - apply sorted_perm.
  - apply sorted_meets_contract.
  - exact Sc.
  - intros. apply dedup_step_last_only.
Qed.

(** *** Methods that leave the object alone *)

Lemma bind_inv {A B} (m : M A) (k : A -> M B) s b s' :
  bind m k s = (Ok b, s') ->
  exists a s1, m s = (Ok a, s1) /\ k a s1 = (Ok b, s').
Proof.
  unfold bind. destruct (m s) as [[a|e] s1]; [|discriminate].
  intros H. exists a, s1. split; [reflexivity | exact H].
Qed.

Lemma readonly_bind {A B} (m : M A) (k : A -> M B) :
  readonly m -> (forall a, readonly (k a)) -> readonly (bind m k).
Proof.
  intros Hm Hk s. unfold bind. specialize (Hm s).
  destruct (m s) as [[a|e] s1]; simpl in Hm; subst s1.
  - apply Hk.
  - reflexivity.
Qed.

Lemma readonly_ret {A} (a : A) : readonly (ret a).
Proof. intro s. reflexivity. Qed.

Lemma readonly_lift {A} (r : result A) : readonly (lift r).
Proof. intro s. reflexivity. Qed.

Lemma readonly_get : readonly get_self.
Proof. intro s. reflexivity. Qed.

Lemma readonly_load_input r : readonly (load_input r).
Proof. intro s. reflexivity. Qed.

Lemma readonly_mapM {A B} (f : A -> M B) l :
  (forall x, readonly (f x)) -> readonly (mapM f l).
Proof.
  intros Hf. induction l as [|x l IH]; simpl.
  - apply readonly_ret.
  - apply readonly_bind; [apply Hf|]. intros y.
    apply readonly_bind; [exact IH|]. intros ys. apply readonly_ret.
Qed.

Lemma readonly_compute_overlap i1 i2 : readonly (compute_overlap i1 i2).
Proof.
  unfold compute_overlap.
  repeat (apply readonly_bind; [first [apply readonly_get
                                      | apply readonly_lift]|]; intros ?).
  apply readonly_ret.
Qed.

Lemma readonly_dedup_step kept r : readonly (dedup_step kept r).
Proof.
  unfold dedup_step. destruct (unsnoc kept) as [[front k]|].
  - apply readonly_bind; [apply readonly_load_input|]. intros i1.
    apply readonly_bind; [apply readonly_load_input|]. intros i2.
    apply readonly_bind; [apply readonly_compute_overlap|]. intros ov.
    apply readonly_bind; [apply readonly_get|]. intros self.
    destruct (Qltb _ _); [destruct (Qltb _ _)|]; apply readonly_ret.
  - apply readonly_ret.
Qed.

Lemma readonly_dedup_scan l : forall kept, readonly (dedup_scan l kept).
Proof.
  induction l as [|r l IH]; intros kept; simpl.
  - apply readonly_ret.
  - apply readonly_bind; [apply readonly_dedup_step | intros; apply IH].
Qed.

Lemma readonly_sort_lines l : readonly (sort_lines l).
Proof.
  unfold sort_lines. apply readonly_bind; [|intros; apply readonly_ret].
  apply readonly_mapM. intros x.
  apply readonly_bind; [apply readonly_load_input|].
  intros; apply readonly_lift.
Qed.

Lemma readonly_dedup_group l : readonly (dedup_group l).
Proof.
  unfold dedup_group.
  apply readonly_bind; [apply readonly_sort_lines|]. intros l'.
  apply readonly_bind; [apply readonly_dedup_scan|]. intros kept.
  apply readonly_ret.
Qed.

Lemma readonly_postprocess_loop items :
  forall valid stats, readonly (postprocess_loop items valid stats).
Proof.
  induction items as [|[p l] items IH]; intros valid stats; simpl.
  - apply readonly_ret.
  - apply readonly_bind; [apply readonly_dedup_group | intros; apply IH].
Qed.

Lemma readonly_postprocess sources : readonly (postprocess sources).
Proof. apply readonly_postprocess_loop. Qed.

(** *** Sizes *)

Lemma mapM_length {A B} (f : A -> M B) l : forall s ys s',
  mapM f l s = (Ok ys, s') -> length ys = length l.
Proof.
  induction l as [|x l IH]; intros s ys s' H.
  - injection H as <- _. reflexivity.
  - rewrite mapM_cons in H.
    destruct (f x s) as [[y|e] s1]; [|discriminate].
    destruct (mapM f l s1) as [[ys'|e] s2] eqn:E; [|discriminate].
    injection H as <- _. simpl. f_equal. eapply IH. exact E.
Qed.

Lemma sort_lines_length l s l' s' :
  sort_lines l s = (Ok l', s') -> length l' = length l.
Proof.
  unfold sort_lines. intros H.
  apply bind_inv in H. destruct H as (ks & s1 & Hks & H).
  injection H as <- _. apply mapM_length in Hks.
  rewrite length_map, sorted_length, length_combine, Hks.
  apply Nat.min_id.
Qed.

Lemma dedup_step_length kept r s kept' s' :
  dedup_step kept r s = (Ok kept', s') ->
  (length kept' <= S (length kept))%nat.
Proof.
  unfold dedup_step.
  destruct (unsnoc_cases kept) as [[-> ->]|(pre & k & -> & ->)].
  - intros H. injection H as <- _. simpl. lia.
  - intros H.
    apply bind_inv in H. destruct H as (i1 & s1 & _ & H).
    apply bind_inv in H. destruct H as (i2 & s2 & _ & H).
    apply bind_inv in H. destruct H as (ov & s3 & _ & H).
    apply bind_inv in H. destruct H as (self & s4 & _ & H).
    destruct (Qltb _ _); [destruct (Qltb _ _)|];
      injection H as <- _; rewrite !length_app; simpl; lia.
Qed.

Lemma dedup_scan_length l : forall kept s out s',
  dedup_scan l kept s = (Ok out, s') ->
  (length out <= length kept + length l)%nat.
Proof.
  induction l as [|r l IH]; intros kept s out s' H; simpl in H.
  - injection H as <- _. lia.
  - apply bind_inv in H. destruct H as (kept' & s1 & Hst & H).
    apply dedup_step_length in Hst. apply IH in H. simpl. lia.
Qed.

Lemma dedup_group_length l s l' kept s' :
  dedup_group l s = (Ok (l', kept), s') ->
  length l' = length l /\ (length kept <= length l)%nat.
Proof.
  unfold dedup_group. intros H.
  apply bind_inv in H. destruct H as (l1 & s1 & Hs & H).
  apply bind_inv in H. destruct H as (k1 & s2 & Hk & H).
  injection H as <- <- _.
  apply sort_lines_length in Hs. apply dedup_scan_length in Hk.
  simpl in Hk. split; [exact Hs | lia].
Qed.

Lemma dict_set_Forall {V} (P : string * V -> Prop) k v d :
  P (k, v) -> Forall P d -> Forall P (dict_set k v d).
Proof.
  intros Hv. induction 1 as [|[k' v'] d Hx Hd IH]; simpl.
  - repeat constructor. exact Hv.
  - destruct (String.eqb k k'); constructor; assumption.
Qed.

Lemma postprocess_loop_stats s sources items :
  forall valid stats valid' stats' s',
    incl items sources ->
    Forall (stat_of_group s sources) stats ->
    postprocess_loop items valid stats s = (Ok (valid', stats'), s') ->
    Forall (stat_of_group s sources) stats'.
Proof.
  induction items as [|[p l] items IH];
    intros valid stats valid' stats' s' Hincl Hst H; simpl in H.
  - injection H as _ <- _. exact Hst.
  - apply bind_inv in H. destruct H as ([l' kept] & s1 & Hg & H).
    assert (s1 = s).
    { pose proof (readonly_dedup_group l s) as R. rewrite Hg in R.
      exact R. }
    subst s1. eapply IH; [| |exact H].
    + intros x Hx. apply Hincl. right. exact Hx.
    + apply dict_set_Forall; [|exact Hst].
      exists l, l', kept. simpl.
      destruct (dedup_group_length _ _ _ _ _ Hg) as [E _].
      repeat split; [apply Hincl; left; reflexivity | exact Hg | exact E].
Qed.

(** C6. Every entry of the statistics [postprocess] returns belongs to a
    group of its input; [starting_lines] is the number of records of that
    group, [kept_lines] the number of records the scan kept for it, and
    [kept_lines <= starting_lines]. *)
Theorem kept_lines_le_starting_lines :
  forall (s : Self) (sources : Sources) valid stats s',
    postprocess sources s = (Ok (valid, stats), s') ->
    forall p st, In (p, st) stats ->
      (kept_lines st <= starting_lines st)%nat /\
      exists line_list line_list' kept,
        In (p, line_list) sources /\
        dedup_group line_list s = (Ok (line_list', kept), s) /\
        starting_lines st = length line_list /\
        kept_lines st = length kept.
Proof.
  intros s sources valid stats s' H p st Hin.
  unfold postprocess in H.
  apply (postprocess_loop_stats s sources) in H;
    [|apply incl_refl | constructor].
  rewrite Forall_forall in H. specialize (H _ Hin).
  destruct H as (l & l' & kept & Hl & Hg & Hs & Hk). simpl in *.
  split.
  - rewrite Hs, Hk. apply (dedup_group_length _ _ _ _ _ Hg).
  - exists l, l', kept. repeat split; assumption.
Qed.

Lemma spec_step_functional s kept r k1 k2 :
  spec_step s kept r k1 -> spec_step s kept r k2 -> k1 = k2.
Proof.
  intros H1 H2.
  inversion H1; subst; inversion H2; subst; try reflexivity;
    repeat match goal with
      | H : [] = _ ++ [_] |- _ => symmetry in H
      | H : _ ++ [_] = [] |- _ =>
          exfalso; exact (app_cons_not_nil _ _ _ (eq_sym H))
      | H : _ ++ [_] = _ ++ [_] |- _ =>
          apply app_inj_tail in H; destruct H as [? ?]; subst
      end;
    try reflexivity;
    repeat match goal with
      | H1 : audio_of s ?x = Some ?a, H2 : audio_of s ?x = Some ?b |- _ =>
          rewrite H1 in H2; injection H2 as ?; subst
      end;
    exfalso;
    first [ contradiction
          | match goal with
            | Hl : (?a <= ?b)%Q, Hg : (?b < ?a)%Q |- _ =>
                exact (Qlt_not_le _ _ Hg Hl)
            end ].
Qed.

(** C7. The de-duplicator is a function of the grouped input and of the
    object it runs in (configuration and audio role), and it leaves that
    object as it found it: a second run on the same input returns the
    same kept records, in the same order, and the same statistics.  Its
    two ingredients leave no choice either: the stable-sort contract has
    one output per input, and at most one rule of the scan applies to a
    kept list and a record. *)
Theorem postprocess_deterministic :
  forall (s : Self) (sources : Sources),
    snd (postprocess sources s) = s /\
    postprocess sources (snd (postprocess sources s)) =
    postprocess sources s /\
    (forall l out1 out2,
        sorted_contract (start_key s) l out1 ->
        sorted_contract (start_key s) l out2 -> out1 = out2) /\
    (forall kept r k1 k2,
        spec_step s kept r k1 -> spec_step s kept r k2 -> k1 = k2).
Proof.
  intros s sources.
  pose proof (readonly_postprocess sources s) as R.
  split; [exact R|]. split; [rewrite R; reflexivity|].
  split.
  - intros l out1 out2. apply sorted_contract_unique.
  - intros kept r k1 k2. apply spec_step_functional.
Qed.

(** *** Loading *)

Lemma line_passes_thresholds_eq r s :
  line_passes_thresholds r s = (passes s r, s).
Proof.
  cbv [line_passes_thresholds passes bind get_self load_input ret lift pick].
  destruct (Qltb _ _); [|reflexivity].
  destruct (match src_attr s with attr_src => src r | attr_tgt => tgt r end);
    reflexivity.
Qed.

Lemma load_loop_cons line rest sources n s :
  load_loop (line :: rest) sources n s =
  let s1 := incr_file_lines s in
  match split_mining_line line None with
  | Raise e => (Raise e, s1)
  | Ok mr =>
      match get_path (pick s1 mr) with
      | Raise e => (Raise e, s1)
      | Ok p =>
          match passes s1 mr with
          | Raise e => (Raise e, s1)
          | Ok true => load_loop rest (add_to_sources p mr sources) (S n) s1
          | Ok false => load_loop rest sources n s1
          end
      end
  end.
Proof.
  simpl. unfold bind at 1. unfold modify_self at 1.
  unfold bind at 1. unfold lift at 1.
  destruct (split_mining_line line None) as [mr|e]; [|reflexivity].
  unfold bind at 1. rewrite load_input_eq.
  unfold bind at 1. unfold lift at 1. simpl.
  destruct (get_path _) as [p|e]; [|reflexivity].
  unfold bind at 1. rewrite line_passes_thresholds_eq.
  destruct (passes _ mr) as [[|]|e]; reflexivity.
Qed.

Lemma load_file_cons line rest s :
  load_file (line :: rest) s =
  let s1 := incr_file_lines s in
  match split_mining_line line (sampling_factor (config s)) with
  | Raise e => (Raise e, s1)
  | Ok mr =>
      match which_object_audio (src mr) (tgt mr) line with
      | Raise e => (Raise e, s1)
      | Ok a =>
          match load_loop (line :: rest) [] 0%nat (set_src_attr a s1) with
          | (Ok r, s') => (Ok (fst r), s')
          | (Raise e, s') => (Raise e, s')
          end
      end
  end.
Proof.
  unfold load_file. unfold bind at 1. unfold modify_self at 1.
  unfold bind at 1. unfold get_self at 1.
  unfold bind at 1. unfold lift at 1.
  change (config (incr_file_lines s)) with (config s).
  destruct (split_mining_line line _) as [mr|e]; [|reflexivity].
  unfold bind at 1. unfold lift at 1.
  destruct (which_object_audio _ _ _) as [a|e]; [|reflexivity].
  unfold bind at 1. unfold modify_self at 1.
  unfold bind at 1.
  destruct (load_loop _ _ _ _) as [[r|e] s']; reflexivity.
Qed.

Lemma frozen_refl s : frozen s s.
Proof. repeat split. Qed.

Lemma frozen_trans s1 s2 s3 : frozen s1 s2 -> frozen s2 s3 -> frozen s1 s3.
Proof.
  unfold frozen. intros (A1 & A2 & A3 & A4 & A5) (B1 & B2 & B3 & B4 & B5).
  repeat split; congruence.
Qed.

Lemma frozen_incr s : frozen s (incr_file_lines s).
Proof. repeat split. Qed.

Lemma frozen_pick s s' r : frozen s s' -> pick s' r = pick s r.
Proof. intros (_ & _ & E & _). unfold pick. rewrite E. reflexivity. Qed.

Lemma frozen_passes s s' r : frozen s s' -> passes s' r = passes s r.
Proof.
  intros F. unfold passes. rewrite (frozen_pick _ _ r F).
  destruct F as (_ & _ & _ & -> & ->). reflexivity.
Qed.

Lemma dict_get_In {V} k (d : list (string * V)) v :
  dict_get k d = Some v -> In (k, v) d.
Proof.
  induction d as [|[k' v'] d IH]; simpl; [discriminate|].
  destruct (String.eqb k k') eqn:E.
  - apply String.eqb_eq in E. intros [= ->]. left. congruence.
  - intros H. right. apply IH, H.
Qed.

Lemma add_to_sources_ok s f p r sources :
  groups_ok s f sources -> grouped s f p r ->
  groups_ok s f (add_to_sources p r sources).
Proof.
  intros Hs Hr. unfold add_to_sources, groups_ok.
  destruct (dict_get p sources) as [l|] eqn:E.
  - apply dict_set_Forall; [|exact Hs]. simpl.
    apply dict_get_In in E. unfold groups_ok in Hs.
    rewrite Forall_forall in Hs. specialize (Hs _ E). simpl in Hs.
    apply Forall_app. split; [exact Hs|].
    constructor; [exact Hr | constructor].
  - apply dict_set_Forall; [|exact Hs]. simpl.
    constructor; [exact Hr | constructor].
Qed.

Lemma load_loop_ok s0 f lines : forall sources n s res s',
  frozen s0 s -> incl lines f -> groups_ok s0 f sources ->
  load_loop lines sources n s = (Ok res, s') ->
  frozen s0 s' /\ groups_ok s0 f (fst res).
Proof.
  induction lines as [|line rest IH]; intros sources n s res s' F I G H.
  - injection H as <- <-. split; assumption.
  - rewrite load_loop_cons in H. cbv zeta in H.
    assert (F1 : frozen s0 (incr_file_lines s))
      by (eapply frozen_trans; [exact F | apply frozen_incr]).
    destruct (split_mining_line line None) as [mr|e] eqn:Es; [|discriminate].
    rewrite (frozen_pick _ _ _ F1), (frozen_passes _ _ _ F1) in H.
    destruct (get_path (pick s0 mr)) as [p|e] eqn:Ep; [|discriminate].
    destruct (passes s0 mr) as [[|]|e] eqn:Et; [| |discriminate].
    + eapply IH; [exact F1 | | |exact H].
      * intros x Hx. apply I. right. exact Hx.
      * apply add_to_sources_ok; [exact G|].
        unfold grouped. split; [|split].
        -- unfold get_path, getattr_Audio in Ep.
           destruct (pick s0 mr) as [a|t]; [|discriminate].
           injection Ep as <-. exists a. split; reflexivity.
        -- exact Et.
        -- exists line. split; [apply I; left; reflexivity | exact Es].
    + eapply IH; [exact F1 | | exact G | exact H].
      intros x Hx. apply I. right. exact Hx.
Qed.

Lemma load_file_grouped f s sources s' :
  load_file f s = (Ok sources, s') ->
  forall p line_list r,
    In (p, line_list) sources -> In r line_list ->
    (exists a, fst (load_input r s') = Ok (AudioItem a) /\ path a = p) /\
    line_passes_thresholds r s' = (Ok true, s') /\
    exists line, In line f /\ split_mining_line line None = Ok r.
Proof.
  intros H p l r Hp Hr.
  destruct f as [|line rest].
  - unfold load_file, bind, get_self, raise in H. discriminate.
  - rewrite load_file_cons in H. cbv zeta in H.
    destruct (split_mining_line line _) as [mr|e]; [|discriminate].
    destruct (which_object_audio _ _ _) as [a|e]; [|discriminate].
    set (s0 := set_src_attr a (incr_file_lines s)) in *.
    destruct (load_loop _ _ _ _) as [[res|e] s1] eqn:E; [|discriminate].
    injection H as <- <-.
    destruct (load_loop_ok s0 (line :: rest) _ _ _ _ _ _
                (frozen_refl s0) (incl_refl _) (Forall_nil _) E)
      as [F G].
    unfold groups_ok in G. rewrite Forall_forall in G.
    specialize (G _ Hp). simpl in G. rewrite Forall_forall in G.
    destruct (G _ Hr) as ((au & Hpick & Hpath) & Hpass & Hline).
    rewrite load_input_eq, line_passes_thresholds_eq.
    rewrite (frozen_pick _ _ _ F), (frozen_passes _ _ _ F), Hpass.
    split; [|split].
    + exists au. simpl. rewrite Hpick. split; [reflexivity | exact Hpath].
    + reflexivity.
    + exact Hline.
Qed.

(** C9. In the mapping [load_file] returns, every record stored under a
    key has the path of its audio item equal to that key, and every
    stored record passed the threshold filter (it is the parse, without
    sampling factor, of a line of the file). *)
Theorem load_file_grouping_invariant :
  forall (f : list string) (s : Self) (sources : Sources) (s' : Self),
    load_file f s = (Ok sources, s') ->
    forall p line_list r,
      In (p, line_list) sources -> In r line_list ->
      (exists a, fst (load_input r s') = Ok (AudioItem a) /\ path a = p) /\
      line_passes_thresholds r s' = (Ok true, s') /\
      exists line, In line f /\ split_mining_line line None = Ok r.
Proof.
  intros f s sources s' H. exact (load_file_grouped f s sources s' H).
Qed.

(** *** The sampling factor *)















(** *** Records without audio *)

Lemma load_loop_text_raises line mr lines :
  In line lines ->
  split_mining_line line None = Ok mr ->
  isinstance_Audio (src mr) = false -> isinstance_Audio (tgt mr) = false ->
  forall sources n s,
    exists e s', load_loop lines sources n s = (Raise e, s').
Proof.
  intros Hin Hsplit Hsrc Htgt.
  induction lines as [|l0 rest IH]; [destruct Hin|].
  intros sources n s. rewrite load_loop_cons. cbv zeta.
  destruct Hin as [->|Hin].
  - rewrite Hsplit. unfold pick.
    destruct (src mr), (tgt mr); try discriminate.
    destruct (src_attr (incr_file_lines s)); simpl; eauto.
  - destruct (split_mining_line l0 None) as [mr0|e]; [|eauto].
    destruct (get_path _) as [p|e]; [|eauto].
    destruct (passes _ mr0) as [[|]|e]; [apply IH | apply IH | eauto];
      exact Hin.
Qed.

(** C4, as the code has it.  A first line whose two items are both text
    stops the run with the [ValueError] of [which_object_audio], whose
    message ends with the raw line.  A line anywhere in the file whose two
    items are both text stops the run with an exception as well, before
    anything is written; past the first line, no check names the line. *)
Theorem text_only_record_aborts_run :
  forall (f : list string) (s : Self),
    (forall line rest mr,
        f = line :: rest ->
        split_mining_line line (sampling_factor (config s)) = Ok mr ->
        isinstance_Audio (src mr) = false ->
        isinstance_Audio (tgt mr) = false ->
        returned (run f s) =
        Raise (ValueError
          ("At least one item needs to be an audio sample. Received: "
           ++ type_repr (src mr) ++ " / " ++ type_repr (tgt mr) ++ newline
           ++ "Input: " ++ line)%string) /\
        written (run f s) = None /\ warned (run f s) = None) /\
    (forall line mr,
        In line f ->
        split_mining_line line None = Ok mr ->
        isinstance_Audio (src mr) = false ->
        isinstance_Audio (tgt mr) = false ->
        exists e,
          returned (run f s) = Raise e /\
          written (run f s) = None /\ warned (run f s) = None).
Proof.
  intros f s. split.
  - intros line rest mr -> Hsplit Hsrc Htgt.
    unfold run. rewrite load_file_cons. cbv zeta. rewrite Hsplit.
    unfold which_object_audio. rewrite Hsrc, Htgt.
    repeat split; reflexivity.
  - intros line mr Hin Hsplit Hsrc Htgt.
    destruct f as [|l0 rest]; [destruct Hin|].
    unfold run. rewrite load_file_cons. cbv zeta.
    destruct (split_mining_line l0 _) as [mr0|e];
      [|exists e; repeat split; reflexivity].
    destruct (which_object_audio _ _ _) as [a|e];
      [|exists e; repeat split; reflexivity].
    destruct (load_loop_text_raises line mr (l0 :: rest) Hin Hsplit
                Hsrc Htgt [] 0%nat (set_src_attr a (incr_file_lines s)))
      as (e & s' & ->).
    exists e. repeat split; reflexivity.
Qed.

(** *** What [load_file] leaves in the object *)

Lemma load_loop_file_lines lines : forall sources n s res s',
  load_loop lines sources n s = (Ok res, s') ->
  file_lines s' = (file_lines s + length lines)%nat.
Proof.
  induction lines as [|line rest IH]; intros sources n s res s' H.
  - injection H as _ <-. simpl. lia.
  - rewrite load_loop_cons in H. cbv zeta in H.
    destruct (split_mining_line line None) as [mr|e]; [|discriminate].
    destruct (get_path _) as [p|e]; [|discriminate].
    destruct (passes _ mr) as [[|]|e]; [| |discriminate];
      apply IH in H; rewrite H; simpl; lia.
Qed.

(** X1. An empty file stops [load_file] with the [ValueError] that names the
    configured path, the object untouched.  When [load_file] returns, it has
    counted one line more than the file has (the first line is counted
    before the loop and again inside it), the role is the one detected on
    the first line parsed with the configured sampling factor, and the
    configuration and the two thresholds are as before. *)
Theorem load_file_object_state :
  forall (f : list string) (s : Self),
    (f = [] ->
     load_file f s =
     (Raise (ValueError ("File " ++ mining_result_path (config s)
                         ++ " is empty.")%string), s)) /\
    (forall sources s',
        load_file f s = (Ok sources, s') ->
        file_lines s' = S (file_lines s + length f)%nat /\
        config s' = config s /\
        self_mining_threshold s' = self_mining_threshold s /\
        self_min_audio_length s' = self_min_audio_length s /\
        exists line rest mr,
          f = line :: rest /\
          split_mining_line line (sampling_factor (config s)) = Ok mr /\
          which_object_audio (src mr) (tgt mr) line = Ok (src_attr s')).
Proof.
  intros f s. split; [intros ->; reflexivity|].
  intros sources s' H. destruct f as [|line rest].
  - unfold load_file, bind, get_self, raise in H. discriminate.
  - rewrite load_file_cons in H. cbv zeta in H.
    destruct (split_mining_line line _) as [mr|e] eqn:Es; [|discriminate].
    destruct (which_object_audio _ _ _) as [a|e] eqn:Ew; [|discriminate].
    destruct (load_loop _ _ _ _) as [[res|e] s1] eqn:E; [|discriminate].
    injection H as _ <-.
    pose proof (load_loop_file_lines _ _ _ _ _ _ E) as L.
    destruct (load_loop_ok _ (line :: rest) _ _ _ _ _ _
                (frozen_refl _) (incl_refl _) (Forall_nil _) E)
      as [(F1 & _ & F3 & F4 & F5) _].
    simpl in L, F1, F3, F4, F5.
    split; [simpl length; lia|]. split; [exact F1|]. split; [exact F4|].
    split; [exact F5|].
    exists line, rest, mr. rewrite F3.
    split; [reflexivity|]. split; [exact Es | exact Ew].
Qed.

(** *** What [load_file] puts in the groups *)

Lemma dict_get_set {V} q p (v : V) d :
  dict_get q (dict_set p v d) =
  if String.eqb q p then Some v else dict_get q d.
Proof.
  induction d as [|[k w] d IH]; simpl.
  - reflexivity.
  - destruct (String.eqb p k) eqn:Epk; simpl.
    + apply String.eqb_eq in Epk. subst k.
      destruct (String.eqb q p); reflexivity.
    + rewrite IH. destruct (String.eqb q k) eqn:Eqk; [|reflexivity].
      apply String.eqb_eq in Eqk. subst k.
      rewrite String.eqb_sym, Epk. reflexivity.
Qed.

Lemma dict_get_None_keys {V} k (d : list (string * V)) :
  dict_get k d = None <-> ~ In k (keys d).
Proof.
  induction d as [|[k' v] d IH]; simpl.
  - split; [intros _ [] | reflexivity].
  - destruct (String.eqb k k') eqn:E.
    + apply String.eqb_eq in E. subst k'.
      split; [discriminate | intros H; exfalso; apply H; left; reflexivity].
    + apply String.eqb_neq in E. rewrite IH. split.
      * intros H [H'|H']; [congruence | contradiction].
      * intros H H'. apply H. right. exact H'.
Qed.

Lemma dict_set_fresh {V} k (v : V) d :
  ~ In k (keys d) -> dict_set k v d = d ++ [(k, v)].
Proof.
  induction d as [|[k' w] d IH]; simpl; intros H; [reflexivity|].
  destruct (String.eqb k k') eqn:E.
  - apply String.eqb_eq in E. exfalso. apply H. left. congruence.
  - rewrite IH; [reflexivity|]. intros H'. apply H. right. exact H'.
Qed.

Lemma dict_set_keys_present {V} k (v : V) d :
  In k (keys d) -> keys (dict_set k v d) = keys d.
Proof.
  induction d as [|[k' w] d IH]; simpl; intros H; [destruct H|].
  destruct (String.eqb k k') eqn:E.
  - apply String.eqb_eq in E. subst k'. reflexivity.
  - apply String.eqb_neq in E. simpl. f_equal. apply IH.
    destruct H as [H|H]; [congruence | exact H].
Qed.

Lemma dict_set_NoDup {V} k (v : V) d :
  NoDup (keys d) -> NoDup (keys (dict_set k v d)).
Proof.
  intros H. destruct (in_dec string_dec k (keys d)) as [Hin|Hout].
  - rewrite dict_set_keys_present; assumption.
  - rewrite dict_set_fresh by assumption. unfold keys. rewrite map_app.
    simpl. apply NoDup_app; [exact H | repeat constructor; intros [] |].
    intros x Hx [<-|[]]. contradiction.
Qed.

Lemma add_to_sources_group q p r sources :
  group_or_empty q (add_to_sources p r sources) =
  if String.eqb q p then group_or_empty p sources ++ [r]
  else group_or_empty q sources.
Proof.
  unfold group_or_empty, add_to_sources.
  destruct (dict_get p sources) as [l|] eqn:E; rewrite dict_get_set;
    destruct (String.eqb q p); reflexivity.
Qed.

Lemma add_to_sources_shape p r sources :
  NoDup (keys sources) -> Forall (fun e => snd e <> []) sources ->
  NoDup (keys (add_to_sources p r sources)) /\
  Forall (fun e => snd e <> []) (add_to_sources p r sources).
Proof.
  intros Hn Hf. unfold add_to_sources.
  destruct (dict_get p sources) as [l|]; split;
    try (apply dict_set_NoDup; exact Hn);
    (apply dict_set_Forall; [simpl|exact Hf]).
  - intros H. apply app_eq_nil in H. destruct H. discriminate.
  - discriminate.
Qed.

Lemma load_loop_groups s0 lines : forall sources n s res s',
  frozen s0 s ->
  NoDup (keys sources) -> Forall (fun e => snd e <> []) sources ->
  load_loop lines sources n s = (Ok res, s') ->
  exists rs,
    rmap (fun l => split_mining_line l None) lines = Ok rs /\
    Forall (has_audio s0) rs /\
    (forall q,
        group_or_empty q (fst res) =
        group_or_empty q sources ++
        filter (fun r => passes_true s0 r && path_is s0 q r) rs) /\
    snd res = (n + length (filter (passes_true s0) rs))%nat /\
    NoDup (keys (fst res)) /\ Forall (fun e => snd e <> []) (fst res).
Proof.
  induction lines as [|line rest IH]; intros sources n s res s' F Hn Hf H.
  - injection H as <- _. exists []. simpl.
    repeat split; try assumption; try constructor.
    + intros q. rewrite app_nil_r. reflexivity.
    + lia.
  - rewrite load_loop_cons in H. cbv zeta in H.
    assert (F1 : frozen s0 (incr_file_lines s))
      by (eapply frozen_trans; [exact F | apply frozen_incr]).
    destruct (split_mining_line line None) as [mr|e] eqn:Es; [|discriminate].
    rewrite (frozen_pick _ _ _ F1), (frozen_passes _ _ _ F1) in H.
    destruct (get_path (pick s0 mr)) as [p|e] eqn:Ep; [|discriminate].
    assert (Ha : exists a, pick s0 mr = AudioItem a /\ path a = p).
    { unfold get_path, getattr_Audio in Ep.
      destruct (pick s0 mr) as [a|t]; [|discriminate].
      injection Ep as <-. exists a. split; reflexivity. }
    destruct Ha as (a & Hpick & Hpath).
    assert (Hau : has_audio s0 mr).
    { exists a. unfold audio_of. rewrite Hpick. reflexivity. }
    destruct (passes s0 mr) as [[|]|e] eqn:Et; [| |discriminate].
    + destruct (add_to_sources_shape p mr sources Hn Hf) as [Hn' Hf'].
      destruct (IH _ _ _ _ _ F1 Hn' Hf' H)
        as (rs & Hrs & Hall & Hg & Hc & Hn'' & Hf'').
      exists (mr :: rs). simpl. rewrite Es, Hrs. simpl.
      split; [reflexivity|]. split; [constructor; assumption|].
      split; [|split; [|split; assumption]].
      * intros q. rewrite Hg, add_to_sources_group.
        unfold passes_true at 2. rewrite Et. simpl.
        unfold path_is at 2. rewrite Hpick, Hpath.
        rewrite (String.eqb_sym p q).
        destruct (String.eqb q p) eqn:Eq.
        -- apply String.eqb_eq in Eq. subst q.
           rewrite <- app_assoc. reflexivity.
        -- reflexivity.
      * rewrite Hc. unfold passes_true at 2. rewrite Et. simpl. lia.
    + destruct (IH _ _ _ _ _ F1 Hn Hf H)
        as (rs & Hrs & Hall & Hg & Hc & Hn'' & Hf'').
      exists (mr :: rs). simpl. rewrite Es, Hrs. simpl.
      split; [reflexivity|]. split; [constructor; assumption|].
      split; [|split; [|split; assumption]].
      * intros q. rewrite Hg. unfold passes_true at 2. rewrite Et.
        reflexivity.
      * rewrite Hc. unfold passes_true at 2. rewrite Et. reflexivity.
Qed.

Lemma frozen_passes_true s s' r :
  frozen s s' -> passes_true s' r = passes_true s r.
Proof.
  intros F. unfold passes_true. rewrite (frozen_passes _ _ _ F). reflexivity.
Qed.

Lemma frozen_path_is s s' q r : frozen s s' -> path_is s' q r = path_is s q r.
Proof.
  intros F. unfold path_is. rewrite (frozen_pick _ _ _ F). reflexivity.
Qed.

Lemma frozen_has_audio s s' r : frozen s s' -> has_audio s r -> has_audio s' r.
Proof.
  intros F [a Ha]. exists a. unfold audio_of in *.
  rewrite (frozen_pick _ _ _ F). exact Ha.
Qed.

Lemma load_file_groups_of f s sources s' :
  load_file f s = (Ok sources, s') ->
  exists rs,
    rmap (fun l => split_mining_line l None) f = Ok rs /\
    Forall (has_audio s') rs /\
    (forall q,
        group_or_empty q sources =
        filter (fun r => passes_true s' r && path_is s' q r) rs) /\
    NoDup (keys sources) /\ Forall (fun e => snd e <> []) sources.
Proof.
  intros H. destruct f as [|line rest].
  - unfold load_file, bind, get_self, raise in H. discriminate.
  - rewrite load_file_cons in H. cbv zeta in H.
    destruct (split_mining_line line _) as [mr|e]; [|discriminate].
    destruct (which_object_audio _ _ _) as [a|e]; [|discriminate].
    set (s0 := set_src_attr a (incr_file_lines s)) in *.
    destruct (load_loop _ _ _ _) as [[res|e] s1] eqn:E; [|discriminate].
    injection H as <- <-.
    destruct (load_loop_ok s0 (line :: rest) _ _ _ _ _ _
                (frozen_refl s0) (incl_refl _) (Forall_nil _) E) as [F _].
    destruct (load_loop_groups s0 (line :: rest) [] 0%nat s0 res s1
                (frozen_refl s0) (NoDup_nil _) (Forall_nil _) E)
      as (rs & Hrs & Hall & Hg & _ & Hn & Hf).
    exists rs. split; [exact Hrs|]. split; [|split; [|split; assumption]].
    + eapply Forall_impl; [|exact Hall]. intros r. apply frozen_has_audio, F.
    + intros q. rewrite Hg. simpl. apply filter_ext. intros r.
      rewrite (frozen_passes_true _ _ _ F), (frozen_path_is _ _ _ _ F).
      reflexivity.
Qed.

(** X2. When [load_file] returns, every line of the file parsed, the groups
    are exactly the records that passed the threshold test, split by the
    path of their audio item and kept in file order; no path is a key twice
    and no group is empty. *)
Theorem load_file_groups_by_path :
  forall (f : list string) (s : Self) (sources : Sources) (s' : Self),
    load_file f s = (Ok sources, s') ->
    exists rs,
      rmap (fun l => split_mining_line l None) f = Ok rs /\
      (forall q,
          group_or_empty q sources =
          filter (fun r => passes_true s' r && path_is s' q r) rs) /\
      NoDup (keys sources) /\ Forall (fun e => snd e <> []) sources.
Proof.
  intros f s sources s' H.
  destruct (load_file_groups_of f s sources s' H)
    as (rs & Hrs & _ & Hg & Hn & Hf).
  exists rs. repeat split; assumption.
Qed.

(** *** What the scan keeps *)

Lemma subseq_nil_l {A} (l : list A) : subseq [] l.
Proof. induction l; constructor; assumption. Qed.

Lemma subseq_refl {A} (l : list A) : subseq l l.
Proof. induction l; constructor; assumption. Qed.

Lemma subseq_app {A} (a b c d : list A) :
  subseq a b -> subseq c d -> subseq (a ++ c) (b ++ d).
Proof.
  intros Hab Hcd. induction Hab; simpl; [exact Hcd | |];
    constructor; assumption.
Qed.

Lemma subseq_trans {A} (a b c : list A) :
  subseq a b -> subseq b c -> subseq a c.
Proof.
  intros Hab Hbc. revert a Hab.
  induction Hbc as [|x b c Hbc IH|x b c Hbc IH]; intros a Hab.
  - exact Hab.
  - constructor. apply IH, Hab.
  - inversion Hab; subst; constructor; apply IH; assumption.
Qed.

Lemma subseq_In {A} (a b : list A) x : subseq a b -> In x a -> In x b.
Proof.
  induction 1 as [|y a b Hab IH|y a b Hab IH]; simpl; intros Hx.
  - exact Hx.
  - right. apply IH, Hx.
  - destruct Hx as [Hx|Hx]; [left; exact Hx | right; apply IH, Hx].
Qed.

Lemma subseq_sorted {A} (R : A -> A -> Prop) (a b : list A) :
  subseq a b -> StronglySorted R b -> StronglySorted R a.
Proof.
  induction 1 as [|x a b Hab IH|x a b Hab IH]; intros Hs.
  - exact Hs.
  - inversion Hs; subst. apply IH. assumption.
  - inversion Hs as [|? ? Hs' Hall]; subst.
    constructor; [apply IH, Hs'|].
    rewrite Forall_forall in *. intros y Hy. apply Hall.
    eapply subseq_In; eassumption.
Qed.

Lemma subseq_front {A} (front : list A) k : subseq front (front ++ [k]).
Proof.
  rewrite <- (app_nil_r front) at 1.
  apply subseq_app; [apply subseq_refl | apply subseq_nil_l].
Qed.

(** The ways an iteration can end well. *)
Lemma dedup_step_cases kept r s kept' s' :
  dedup_step kept r s = (Ok kept', s') ->
  s' = s /\
  ((kept = [] /\ kept' = [r]) \/
   exists front k ak ar,
     kept = front ++ [k] /\
     audio_of s k = Some ak /\ audio_of s r = Some ar /\
     ((Qltb (max_overlap (config s)) (overlap_of s ak ar) = false /\
       kept' = kept ++ [r]) \/
      (Qltb (max_overlap (config s)) (overlap_of s ak ar) = true /\
       Qltb (score k) (score r) = true /\ kept' = front ++ [r]) \/
      (Qltb (max_overlap (config s)) (overlap_of s ak ar) = true /\
       Qltb (score k) (score r) = false /\ kept' = kept))).
Proof.
  intros H.
  assert (Hs : s' = s).
  { pose proof (readonly_dedup_step kept r s) as R. rewrite H in R.
    exact R. }
  split; [exact Hs|]. subst s'.
  destruct (unsnoc_cases kept) as [[-> _]|(front & k & -> & _)].
  - left. unfold dedup_step in H. simpl in H. injection H as <-.
    split; reflexivity.
  - right. exists front, k.
    destruct (audio_of s k) as [ak|] eqn:Ek.
    + destruct (audio_of s r) as [ar|] eqn:Er.
      * exists ak, ar. rewrite (dedup_step_audio _ _ _ _ _ _ Ek Er) in H.
        injection H as <-.
        split; [reflexivity|]. split; [reflexivity|].
        split; [reflexivity|].
        destruct (Qltb (max_overlap (config s)) (overlap_of s ak ar));
          [destruct (Qltb (score k) (score r))|]; auto.
      * exfalso. unfold audio_of, pick in Ek, Er.
        unfold dedup_step in H. rewrite unsnoc_snoc in H.
        cbv [bind get_self load_input ret lift compute_overlap] in H.
        destruct (match src_attr s with
                  | attr_src => src k | attr_tgt => tgt k end);
          [|discriminate].
        destruct (match src_attr s with
                  | attr_src => src r | attr_tgt => tgt r end);
          discriminate.
    + exfalso. unfold audio_of, pick in Ek.
      unfold dedup_step in H. rewrite unsnoc_snoc in H.
      cbv [bind get_self load_input ret lift compute_overlap] in H.
      destruct (match src_attr s with
                | attr_src => src k | attr_tgt => tgt k end);
        discriminate.
Qed.

Lemma dedup_step_subseq kept r s kept' s' seen :
  dedup_step kept r s = (Ok kept', s') ->
  subseq kept seen -> subseq kept' (seen ++ [r]) /\ kept' <> [].
Proof.
  intros H Hsub. apply dedup_step_cases in H.
  destruct H as [_ [[-> ->]|(front & k & ak & ar & -> & _ & _ & Hc)]].
  - split; [|discriminate].
    apply (subseq_app [] seen [r] [r]);
      [apply subseq_nil_l | apply subseq_refl].
  - destruct Hc as [[_ ->]|[(_ & _ & ->)|(_ & _ & ->)]].
    + split; [apply subseq_app; [exact Hsub | apply subseq_refl]|].
      intros E. apply app_eq_nil in E. destruct E. discriminate.
    + split.
      * apply subseq_app; [|apply subseq_refl].
        eapply subseq_trans; [apply subseq_front | exact Hsub].
      * intros E. apply app_eq_nil in E. destruct E. discriminate.
    + split.
      * rewrite <- (app_nil_r (front ++ [k])).
        apply subseq_app; [exact Hsub | apply subseq_nil_l].
      * intros E. apply app_eq_nil in E. destruct E. discriminate.
Qed.

Lemma dedup_scan_subseq l : forall kept s out s' seen,
  dedup_scan l kept s = (Ok out, s') ->
  subseq kept seen ->
  subseq out (seen ++ l) /\ (kept <> [] \/ l <> [] -> out <> []).
Proof.
  induction l as [|r l IH]; intros kept s out s' seen H Hsub; simpl in H.
  - injection H as <- _. rewrite app_nil_r. split; [exact Hsub|].
    intros [E|E]; [exact E | congruence].
  - apply bind_inv in H. destruct H as (kept' & s1 & Hst & H).
    destruct (dedup_step_subseq _ _ _ _ _ _ Hst Hsub) as [Hsub' Hne].
    destruct (IH _ _ _ _ _ H Hsub') as [Hout Hne'].
    rewrite <- app_assoc in Hout. split; [exact Hout|].
    intros _. apply Hne'. left. exact Hne.
Qed.

Lemma sort_keys_inv l : forall s ks s',
  mapM (fun x => it <- load_input x ;; lift (get_start it)) l s =
  (Ok ks, s') ->
  Forall (has_audio s) l.
Proof.
  induction l as [|r l IH]; intros s ks s' H; [constructor|].
  rewrite mapM_cons in H. unfold bind at 1 in H.
  rewrite load_input_eq in H. unfold lift at 1 in H.
  destruct (pick s r) as [a|t] eqn:Ep; simpl in H; [|discriminate].
  destruct (mapM _ l s) as [[ys|e] s2] eqn:E; [|discriminate].
  constructor; [|eapply IH; exact E].
  exists a. unfold audio_of. rewrite Ep. reflexivity.
Qed.

Lemma dedup_group_inv l s l' kept s' :
  dedup_group l s = (Ok (l', kept), s') ->
  s' = s /\ Forall (has_audio s) l /\
  l' = sorted (start_key s) l /\
  dedup_scan l' [] s = (Ok kept, s).
Proof.
  intros H.
  assert (Hs : s' = s).
  { pose proof (readonly_dedup_group l s) as R. rewrite H in R. exact R. }
  subst s'. split; [reflexivity|].
  unfold dedup_group in H.
  apply bind_inv in H. destruct H as (l1 & s1 & Hsort & H).
  assert (Ha : Forall (has_audio s) l).
  { unfold sort_lines in Hsort. apply bind_inv in Hsort.
    destruct Hsort as (ks & s2 & Hk & _). eapply sort_keys_inv. exact Hk. }
  rewrite (sort_lines_audio _ _ Ha) in Hsort. injection Hsort as <- <-.
  apply bind_inv in H. destruct H as (k1 & s2 & Hscan & H).
  assert (s2 = s).
  { pose proof (readonly_dedup_scan (sorted (start_key s) l) [] s) as R.
    rewrite Hscan in R. exact R. }
  subst s2. injection H as <- <-.
  split; [exact Ha|]. split; [reflexivity | exact Hscan].
Qed.

(** X3. The records kept for a group are a subsequence of the group sorted
    by start: every kept record is a record of the group, none is kept
    twice over, the kept list is itself ascending by start, and a group
    that is not empty keeps at least one record. *)
Theorem dedup_group_keeps_subsequence :
  forall (l : list MiningLineResult) (s : Self) l' kept s',
    dedup_group l s = (Ok (l', kept), s') ->
    subseq kept l' /\
    Permutation l l' /\
    StronglySorted (fun x y => start_key s x <= start_key s y) kept /\
    (forall r, In r kept -> In r l) /\
    (l <> [] -> kept <> []).
Proof.
  intros l s l' kept s' H.
  apply dedup_group_inv in H. destruct H as (_ & _ & -> & Hscan).
  destruct (dedup_scan_subseq _ _ _ _ _ [] Hscan subseq_nil)
    as [Hsub Hne].
  simpl in Hsub.
  split; [exact Hsub|]. split; [apply sorted_perm|].
  split; [|split].
  - eapply subseq_sorted; [exact Hsub | apply sorted_sorted].
  - intros r Hr. eapply Permutation_in;
      [apply Permutation_sym, sorted_perm|].
    eapply subseq_In; eassumption.
  - intros Hl. apply Hne. right. intros E. apply Hl.
    apply Permutation_nil. rewrite <- E. apply Permutation_sym, sorted_perm.
Qed.

(** *** Groups without conflict *)

Lemma dedup_scan_no_conflict s l : forall kept,
  Forall (has_audio s) (kept ++ l) ->
  (forall pre x y post ax ay,
      kept ++ l = pre ++ x :: y :: post ->
      audio_of s x = Some ax -> audio_of s y = Some ay ->
      (overlap_of s ax ay <= max_overlap (config s))%Q) ->
  dedup_scan l kept s = (Ok (kept ++ l), s).
Proof.
  induction l as [|r l IH]; intros kept Ha Hok; simpl.
  - rewrite app_nil_r. reflexivity.
  - assert (Hstep : dedup_step kept r s = (Ok (kept ++ [r]), s)).
    { destruct (unsnoc_cases kept) as [[-> _]|(front & k & -> & _)].
      - reflexivity.
      - assert (Hk : has_audio s k).
        { rewrite Forall_forall in Ha. apply Ha.
          rewrite !in_app_iff. left. right. left. reflexivity. }
        assert (Hr : has_audio s r).
        { rewrite Forall_forall in Ha. apply Ha.
          rewrite !in_app_iff. right. left. reflexivity. }
        destruct Hk as [ak Hk], Hr as [ar Hr].
        rewrite (dedup_step_audio _ _ _ _ _ _ Hk Hr).
        assert (Ho : (overlap_of s ak ar <= max_overlap (config s))%Q).
        { apply (Hok front k r l ak ar); [|exact Hk | exact Hr].
          rewrite <- app_assoc. reflexivity. }
        apply Qltb_ge in Ho. rewrite Ho. reflexivity. }
    unfold bind. rewrite Hstep.
    replace (kept ++ r :: l) with ((kept ++ [r]) ++ l)
      by (rewrite <- app_assoc; reflexivity).
    apply IH.
    + rewrite <- app_assoc. exact Ha.
    + intros pre x y post ax ay E. apply (Hok pre x y post ax ay).
      rewrite <- E, <- app_assoc. reflexivity.
Qed.

(** X4. When no record of a group overlaps its successor in start order by
    more than [max_overlap], the whole group is kept, in start order,
    whatever the scores. *)
Theorem dedup_group_without_conflict :
  forall (l : list MiningLineResult) (s : Self),
    Forall (has_audio s) l ->
    (forall pre x y post ax ay,
        sorted (start_key s) l = pre ++ x :: y :: post ->
        audio_of s x = Some ax -> audio_of s y = Some ay ->
        (overlap_of s ax ay <= max_overlap (config s))%Q) ->
    dedup_group l s =
    (Ok (sorted (start_key s) l, sorted (start_key s) l), s).
Proof.
  intros l s Ha Hok. unfold dedup_group, bind.
  rewrite (sort_lines_audio _ _ Ha).
  rewrite (dedup_scan_no_conflict s (sorted (start_key s) l) []).
  - reflexivity.
  - simpl. eapply Permutation_Forall; [apply sorted_perm | exact Ha].
  - exact Hok.
Qed.

(** *** The best record of a group *)

Lemma dedup_step_members kept r s kept' s' :
  dedup_step kept r s = (Ok kept', s') ->
  (forall x, In x kept' -> In x kept \/ x = r) /\
  (forall x, In x kept -> (score r <= score x)%Q -> In x kept') /\
  (In r kept' \/ exists k, In k kept /\ (score r <= score k)%Q).
Proof.
  intros H. apply dedup_step_cases in H.
  destruct H as [_ [[-> ->]|(front & k & ak & ar & -> & _ & _ & Hc)]].
  - split; [|split].
    + intros x [<-|[]]. right. reflexivity.
    + intros x [].
    + left. left. reflexivity.
  - destruct Hc as [[_ ->]|[(_ & Hs & ->)|(_ & Hs & ->)]].
    + split; [|split].
      * intros x Hx. apply in_app_iff in Hx.
        destruct Hx as [Hx|[<-|[]]]; [left; exact Hx | right; reflexivity].
      * intros x Hx _. apply in_app_iff. left. exact Hx.
      * left. apply in_app_iff. right. left. reflexivity.
    + apply Qltb_lt in Hs. split; [|split].
      * intros x Hx. apply in_app_iff in Hx.
        destruct Hx as [Hx|[<-|[]]]; [|right; reflexivity].
        left. apply in_app_iff. left. exact Hx.
      * intros x Hx Hle. apply in_app_iff in Hx.
        destruct Hx as [Hx|[<-|[]]].
        -- apply in_app_iff. left. exact Hx.
        -- exfalso. exact (Qlt_not_le _ _ Hs Hle).
      * left. apply in_app_iff. right. left. reflexivity.
    + apply Qltb_ge in Hs. split; [|split].
      * intros x Hx. left. exact Hx.
      * intros x Hx _. exact Hx.
      * right. exists k. split; [|exact Hs].
        apply in_app_iff. right. left. reflexivity.
Qed.

Lemma dedup_scan_stays m l : forall kept s out s',
  dedup_scan l kept s = (Ok out, s') ->
  In m kept ->
  (forall y, In y l -> (score y <= score m)%Q) ->
  In m out.
Proof.
  induction l as [|r l IH]; intros kept s out s' H Hm Hle; simpl in H.
  - injection H as <- _. exact Hm.
  - apply bind_inv in H. destruct H as (kept' & s1 & Hst & H).
    destruct (dedup_step_members _ _ _ _ _ Hst) as (_ & Hkeep & _).
    eapply IH; [exact H | |].
    + apply Hkeep; [exact Hm|]. apply Hle. left. reflexivity.
    + intros y Hy. apply Hle. right. exact Hy.
Qed.

Lemma dedup_scan_best m l2 l1 : forall kept s out s',
  dedup_scan (l1 ++ m :: l2) kept s = (Ok out, s') ->
  (forall y, In y kept -> (score y < score m)%Q) ->
  (forall y, In y l1 -> (score y < score m)%Q) ->
  (forall y, In y l2 -> (score y <= score m)%Q) ->
  In m out.
Proof.
  induction l1 as [|r l1 IH]; intros kept s out s' H Hk H1 H2; simpl in H.
  - apply bind_inv in H. destruct H as (kept' & s1 & Hst & H).
    destruct (dedup_step_members _ _ _ _ _ Hst) as (_ & _ & Hin).
    eapply dedup_scan_stays; [exact H | | exact H2].
    destruct Hin as [Hin|(k & Hkin & Hle)]; [exact Hin|].
    exfalso. exact (Qlt_not_le _ _ (Hk _ Hkin) Hle).
  - apply bind_inv in H. destruct H as (kept' & s1 & Hst & H).
    destruct (dedup_step_members _ _ _ _ _ Hst) as (Hfrom & _ & _).
    eapply IH; [exact H | | | exact H2].
    + intros y Hy. destruct (Hfrom _ Hy) as [Hy' | ->].
      * apply Hk, Hy'.
      * apply H1. left. reflexivity.
    + intros y Hy. apply H1. right. exact Hy.
Qed.

(** X5. A record whose score is strictly above the score of every other
    record of its group is always among the kept records. *)
Theorem best_record_is_kept :
  forall (l : list MiningLineResult) (s : Self) l' kept s'
         (m : MiningLineResult) (others : list MiningLineResult),
    dedup_group l s = (Ok (l', kept), s') ->
    Permutation l (m :: others) ->
    (forall y, In y others -> (score y < score m)%Q) ->
    In m kept.
Proof.
  intros l s l' kept s' m others H Hp Hbest.
  apply dedup_group_inv in H. destruct H as (_ & _ & -> & Hscan).
  assert (Hp' : Permutation (m :: others) (sorted (start_key s) l)).
  { eapply perm_trans; [apply Permutation_sym, Hp | apply sorted_perm]. }
  assert (Hin : In m (sorted (start_key s) l)).
  { eapply Permutation_in; [exact Hp' | left; reflexivity]. }
  apply in_split in Hin. destruct Hin as (l1 & l2 & E).
  rewrite E in Hscan, Hp'.
  apply Permutation_cons_app_inv in Hp'.
  eapply dedup_scan_best; [exact Hscan | | |].
  - intros y [].
  - intros y Hy. apply Hbest. eapply Permutation_in;
      [apply Permutation_sym, Hp' | apply in_app_iff; left; exact Hy].
  - intros y Hy. apply Qlt_le_weak, Hbest. eapply Permutation_in;
      [apply Permutation_sym, Hp' | apply in_app_iff; right; exact Hy].
Qed.

(** *** Thresholds *)

(** X6. Lowering either threshold never rejects a record that passed:
    a record accepted under a score threshold and a minimal length is
    accepted under any lower ones (same audio role). *)
Theorem line_passes_thresholds_monotone :
  forall (r : MiningLineResult) (s1 s2 : Self),
    src_attr s1 = src_attr s2 ->
    (self_mining_threshold s1 <= self_mining_threshold s2)%Q ->
    (self_min_audio_length s1 <= self_min_audio_length s2)%Z ->
    line_passes_thresholds r s2 = (Ok true, s2) ->
    line_passes_thresholds r s1 = (Ok true, s1).
Proof using.
  intros r s1 s2 Ha Ht Hm H.
  rewrite line_passes_thresholds_eq in *. injection H as H.
  f_equal. unfold passes, pick in *. rewrite Ha.
  destruct (Qltb (self_mining_threshold s2) (score r)) eqn:E2;
    [|discriminate].
  apply Qltb_lt in E2.
  assert (E1 : Qltb (self_mining_threshold s1) (score r) = true)
    by (apply Qltb_lt; eapply Qle_lt_trans; eassumption).
  rewrite E1.
  destruct (get_duration _) as [d|e]; [|discriminate].
  simpl in *. injection H as H. f_equal. apply Qltb_lt in H.
  apply Qltb_lt. eapply Qle_lt_trans; [|exact H].
  rewrite <- Zle_Qle. exact Hm.
Qed.

(** *** How [postprocess] puts the groups together *)

Lemma keys_app {V} (a b : list (string * V)) : keys (a ++ b) = keys a ++ keys b.
Proof. apply map_app. Qed.

Lemma postprocess_loop_compose s items : forall valid0 stats0 valid stats s',
  NoDup (keys stats0 ++ keys items) ->
  postprocess_loop items valid0 stats0 s = (Ok (valid, stats), s') ->
  exists results,
    Forall2 (fun g r => dedup_group (snd g) s = (Ok r, s)) items results /\
    valid = valid0 ++ concat (map snd results) /\
    stats = stats0 ++ combine (keys items) (map stat_of results).
Proof.
  induction items as [|[p l] items IH];
    intros valid0 stats0 valid stats s' Hnd H; simpl in H.
  - injection H as <- <- _. exists []. simpl. rewrite !app_nil_r.
    repeat split. constructor.
  - apply bind_inv in H. destruct H as (r & s1 & Hg & H).
    assert (s1 = s).
    { pose proof (readonly_dedup_group l s) as R. rewrite Hg in R.
      exact R. }
    subst s1.
    assert (Hfresh : ~ In p (keys stats0)).
    { simpl in Hnd. apply NoDup_remove_2 in Hnd. intros Hin. apply Hnd.
      apply in_app_iff. left. exact Hin. }
    rewrite (dict_set_fresh _ _ _ Hfresh) in H.
    apply IH in H.
    + destruct H as (results & HF & Hv & Hs).
      exists (r :: results). split; [constructor; assumption|].
      simpl. rewrite <- !app_assoc in *. split; assumption.
    + rewrite keys_app. simpl. rewrite <- app_assoc. exact Hnd.
Qed.

(** X7. [postprocess] treats the groups one by one, in the order of the
    mapping: the records it returns are the kept lists of the groups one
    after the other, and the statistics have one entry per group, in the
    same order, with the sizes of the group and of its kept list. *)
Theorem postprocess_group_by_group :
  forall (sources : Sources) (s : Self) valid stats s',
    NoDup (keys sources) ->
    postprocess sources s = (Ok (valid, stats), s') ->
    exists results,
      Forall2 (fun g r => dedup_group (snd g) s = (Ok r, s))
              sources results /\
      valid = concat (map snd results) /\
      stats = combine (keys sources) (map stat_of results) /\
      keys stats = keys sources.
Proof.
  intros sources s valid stats s' Hnd H.
  destruct (postprocess_loop_compose s sources [] [] valid stats s' Hnd H)
    as (results & HF & Hv & Hs).
  exists results. simpl in Hv, Hs.
  split; [exact HF|]. split; [exact Hv|]. split; [exact Hs|].
  subst stats. unfold keys at 1.
  assert (Hlen : length (keys sources) = length (map stat_of results)).
  { unfold keys. rewrite !length_map. eapply Forall2_length. exact HF. }
  clear -Hlen. revert Hlen.
  generalize (map stat_of results) as sts. generalize (keys sources) as ks.
  induction ks as [|k ks IH]; intros [|st sts] Hlen; try discriminate.
  - reflexivity.
  - simpl. f_equal. apply IH. injection Hlen as Hlen. exact Hlen.
Qed.

(** *** Runs that cannot stop *)

Lemma dedup_group_total l s :
  Forall (has_audio s) l ->
  exists kept,
    dedup_group l s = (Ok (sorted (start_key s) l, kept), s) /\
    Forall (has_audio s) kept.
Proof.
  intros Hl.
  assert (Hs : Forall (has_audio s) (sorted (start_key s) l)).
  { eapply Permutation_Forall; [apply sorted_perm | exact Hl]. }
  destruct (dedup_scan_spec _ [] s Hs (Forall_nil _))
    as (kept & E & _ & Hk & _).
  exists kept. split; [|exact Hk].
  unfold dedup_group, bind. rewrite (sort_lines_audio _ _ Hl), E.
  reflexivity.
Qed.

Lemma postprocess_loop_total s items : forall valid0 stats0,
  Forall (fun g => Forall (has_audio s) (snd g)) items ->
  Forall (has_audio s) valid0 ->
  exists valid stats,
    postprocess_loop items valid0 stats0 s = (Ok (valid, stats), s) /\
    Forall (has_audio s) valid.
Proof.
  induction items as [|[p l] items IH]; intros valid0 stats0 Hi Hv; simpl.
  - exists valid0, stats0. split; [reflexivity | exact Hv].
  - inversion Hi as [|? ? Hl Hrest]; subst. simpl in Hl.
    destruct (dedup_group_total l s Hl) as (kept & E & Hk).
    unfold bind. rewrite E. simpl. apply IH; [exact Hrest|].
    apply Forall_app. split; assumption.
Qed.

Lemma total_src_time_total s valid : forall acc,
  Forall (has_audio s) valid ->
  exists t, total_src_time valid acc s = (Ok t, s).
Proof.
  induction valid as [|r valid IH]; intros acc H; simpl.
  - exists acc. reflexivity.
  - inversion H as [|? ? [a Ha] Hrest]; subst.
    unfold bind at 1. rewrite load_input_eq.
    rewrite (audio_of_pick _ _ _ Ha). unfold bind at 1, lift at 1. simpl.
    apply IH, Hrest.
Qed.

Lemma group_or_empty_of_entry (sources : Sources) p l :
  NoDup (keys sources) -> In (p, l) sources -> group_or_empty p sources = l.
Proof.
  intros Hnd Hin. unfold group_or_empty.
  induction sources as [|[k v] d IH]; [destruct Hin|].
  simpl in *. inversion Hnd as [|? ? Hnotin Hnd']; subst.
  destruct Hin as [[= -> ->]|Hin].
  - rewrite String.eqb_refl. reflexivity.
  - destruct (String.eqb p k) eqn:E.
    + apply String.eqb_eq in E. subst k. exfalso. apply Hnotin.
      change p with (fst (p, l)). apply in_map, Hin.
    + apply IH; assumption.
Qed.

Lemma load_file_groups_audio f s sources s' :
  load_file f s = (Ok sources, s') ->
  Forall (fun g => Forall (has_audio s') (snd g)) sources.
Proof.
  intros H.
  destruct (load_file_groups_of f s sources s' H)
    as (rs & _ & Hall & Hg & Hn & _).
  apply Forall_forall. intros [p l] Hin. simpl.
  rewrite <- (group_or_empty_of_entry sources p l Hn Hin), Hg.
  apply Forall_forall. intros r Hr. apply filter_In in Hr.
  rewrite Forall_forall in Hall. apply Hall, Hr.
Qed.

Lemma dedup_group_kept_In l s l' kept s' r :
  dedup_group l s = (Ok (l', kept), s') -> In r kept -> In r l.
Proof.
  intros H Hr. apply dedup_group_inv in H.
  destruct H as (_ & _ & -> & Hscan).
  destruct (dedup_scan_subseq _ _ _ _ _ [] Hscan subseq_nil) as [Hsub _].
  simpl in Hsub.
  eapply Permutation_in; [apply Permutation_sym, sorted_perm|].
  eapply subseq_In; eassumption.
Qed.

Lemma keys_combine (ks : list string) : forall sts : list RetentionStat,
  length ks = length sts -> keys (combine ks sts) = ks.
Proof.
  induction ks as [|k ks IH]; intros [|st sts] Hlen; try discriminate.
  - reflexivity.
  - simpl. f_equal. apply IH. injection Hlen as Hlen. exact Hlen.
Qed.

(** What the statistics and the kept records of [postprocess] look like
    when the groups have distinct keys and none is empty. *)
Lemma postprocess_shape sources s valid stats s' :
  NoDup (keys sources) -> Forall (fun g => snd g <> []) sources ->
  postprocess sources s = (Ok (valid, stats), s') ->
  keys stats = keys sources /\
  Forall (fun e => starting_lines (snd e) <> 0%nat) stats /\
  (forall r, In r valid -> exists p l, In (p, l) sources /\ In r l).
Proof.
  intros Hnd Hne H.
  destruct (postprocess_loop_compose s sources [] [] valid stats s' Hnd H)
    as (results & HF & Hv & Hs).
  simpl in Hv, Hs. subst valid stats.
  split; [|split].
  - apply keys_combine. unfold keys. rewrite !length_map.
    eapply Forall2_length. exact HF.
  - clear Hnd H.
    induction HF as [|[p l] [l' kept] sources results Hg HF IH];
      simpl; [constructor|].
    inversion Hne as [|? ? Hl Hne']; subst. simpl in Hg, Hl.
    constructor; [|apply IH; exact Hne'].
    simpl. destruct (dedup_group_length _ _ _ _ _ Hg) as [E _].
    rewrite E. destruct l; [contradiction | discriminate].
  - intros r Hr. clear Hnd Hne H.
    induction HF as [|[p l] [l' kept] sources results Hg HF IH];
      simpl in Hr; [destruct Hr|].
    apply in_app_iff in Hr. destruct Hr as [Hr|Hr].
    + exists p, l. split; [left; reflexivity|].
      eapply dedup_group_kept_In; eassumption.
    + destruct (IH Hr) as (p' & l0 & Hin & Hr').
      exists p', l0. split; [right; exact Hin | exact Hr'].
Qed.

(** *** The ways loading can stop *)

Lemma load_loop_raises s0 lines : forall sources n s e s',
  frozen s0 s ->
  load_loop lines sources n s = (Raise e, s') ->
  frozen s0 s' /\
  ((exists line, In line lines /\ split_mining_line line None = Raise e) \/
   (exists line mr t,
       In line lines /\ split_mining_line line None = Ok mr /\
       pick s0 mr = TextItem t /\ e = AttributeError "Text" "path")).
Proof.
  induction lines as [|line rest IH]; intros sources n s e s' F H.
  - discriminate.
  - rewrite load_loop_cons in H. cbv zeta in H.
    assert (F1 : frozen s0 (incr_file_lines s))
      by (eapply frozen_trans; [exact F | apply frozen_incr]).
    destruct (split_mining_line line None) as [mr|e0] eqn:Es.
    + rewrite (frozen_pick _ _ _ F1), (frozen_passes _ _ _ F1) in H.
      destruct (pick s0 mr) as [a|t] eqn:Ep.
      * simpl in H.
        assert (Hp : exists b, passes s0 mr = Ok b).
        { unfold passes. rewrite Ep. simpl.
          destruct (Qltb _ _); eauto. }
        destruct Hp as [b Hp]. rewrite Hp in H.
        assert (Hrec : exists d m,
                   load_loop rest d m (incr_file_lines s) = (Raise e, s'))
          by (destruct b; eauto).
        destruct Hrec as (d & m & Hrec).
        destruct (IH _ _ _ _ _ F1 Hrec) as [F' [(l & Hl & El)|Hc]].
        -- split; [exact F'|]. left. exists l. split; [right|]; assumption.
        -- destruct Hc as (l & mr' & t & Hl & El & Et & Ee).
           split; [exact F'|]. right. exists l, mr', t.
           repeat split; try assumption. right. exact Hl.
      * simpl in H. injection H as <- <-. split; [exact F1|].
        right. exists line, mr, t. repeat split; try assumption.
        left. reflexivity.
    + injection H as <- <-. split; [exact F1|].
      left. exists line. split; [left; reflexivity | exact Es].
Qed.

(** X12. [load_file] stops in four ways only: the file is empty; the first
    line, parsed with the configured sampling factor, does not parse or has
    no audio item; some line does not parse without sampling factor (the
    parser's own exception is passed on); or some line has a text item
    where the audio item is expected, which raises the [AttributeError] of
    [.path]. *)
Theorem load_file_errors :
  forall (f : list string) (s : Self) (e : PyError) (s' : Self),
    load_file f s = (Raise e, s') ->
    (f = [] /\
     e = ValueError ("File " ++ mining_result_path (config s)
                     ++ " is empty.")%string) \/
    (exists line rest,
        f = line :: rest /\
        (split_mining_line line (sampling_factor (config s)) = Raise e \/
         exists mr,
           split_mining_line line (sampling_factor (config s)) = Ok mr /\
           which_object_audio (src mr) (tgt mr) line = Raise e)) \/
    (exists line, In line f /\ split_mining_line line None = Raise e) \/
    (exists line mr t,
        In line f /\ split_mining_line line None = Ok mr /\
        pick s' mr = TextItem t /\ e = AttributeError "Text" "path").
Proof.
  intros f s e s' H. destruct f as [|line rest].
  - left. unfold load_file, bind, get_self, raise in H.
    injection H as <- _. split; reflexivity.
  - right. rewrite load_file_cons in H. cbv zeta in H.
    destruct (split_mining_line line (sampling_factor (config s)))
      as [mr|e0] eqn:Es.
    + destruct (which_object_audio _ _ _) as [a|e1] eqn:Ew.
      * destruct (load_loop _ _ _ _) as [[r|e2] s2] eqn:E;
          [discriminate|]. injection H as <- <-.
        destruct (load_loop_raises _ _ _ _ _ _ _ (frozen_refl _) E)
          as [F [Hc|Hc]].
        -- right. left. exact Hc.
        -- right. right. destruct Hc as (l & mr' & t & Hl & El & Et & Ee).
           exists l, mr', t. rewrite (frozen_pick _ _ _ F).
           repeat split; assumption.
      * injection H as <- _. left. exists line, rest.
        split; [reflexivity|]. right. exists mr. split; [exact Es|].
        exact Ew.
    + injection H as <- _. left. exists line, rest.
      split; [reflexivity|]. left. exact Es.
Qed.

(** *** The retention ratios *)

(** X13. For groups with distinct keys, none of them empty, as [load_file]
    makes them, every entry of the statistics has
    [1 <= kept_lines <= starting_lines]: every retention ratio lies in
    the interval from 0 (excluded) to 1 (included). *)
Theorem retention_ratio_bounds :
  forall (sources : Sources) (s : Self) valid stats s',
    NoDup (keys sources) -> Forall (fun g => snd g <> []) sources ->
    postprocess sources s = (Ok (valid, stats), s') ->
    Forall (fun e =>
              (1 <= kept_lines (snd e) <= starting_lines (snd e))%nat /\
              (0 < ratio (snd e) <= 1)%R) stats.
Proof.
  intros sources s valid stats s' Hnd Hne H.
  destruct (postprocess_loop_compose s sources [] [] valid stats s' Hnd H)
    as (results & HF & _ & Hs).
  simpl in Hs. subst stats. clear Hnd H.
  induction HF as [|[p l] [l' kept] sources results Hg HF IH];
    simpl; [constructor|].
  inversion Hne as [|? ? Hl Hne']; subst. simpl in Hg, Hl.
  constructor; [|apply IH; exact Hne'].
  simpl. destruct (dedup_group_length _ _ _ _ _ Hg) as [E Hle].
  assert (Hk : kept <> []).
  { apply dedup_group_inv in Hg. destruct Hg as (_ & _ & -> & Hscan).
    destruct (dedup_scan_subseq _ _ _ _ _ [] Hscan subseq_nil) as [_ Hn].
    apply Hn. right. intros E0. apply Hl. apply Permutation_nil.
    rewrite <- E0. apply Permutation_sym, sorted_perm. }
  assert (H1 : (1 <= length kept)%nat)
    by (destruct kept; [contradiction | simpl; lia]).
  assert (H2 : (length kept <= length l')%nat) by lia.
  split; [lia|]. unfold ratio. simpl.
  assert (Hkp : (0 < INR (length kept))%R) by (apply lt_0_INR; lia).
  assert (Hlp : (0 < INR (length l'))%R) by (apply lt_0_INR; lia).
  assert (Hkl : (INR (length kept) <= INR (length l'))%R)
    by (apply le_INR; exact H2).
  split.
  - apply Rdiv_lt_0_compat; assumption.
  - apply (Rmult_le_reg_r (INR (length l'))); [exact Hlp|].
    unfold Rdiv. rewrite Rmult_assoc, Rinv_l by lra. lra.
Qed.

End PostProcessAudioModule.

(** ** The statistics block *)

Lemma argwhere_from_rows i mask :
  argwhere_from i mask = map (fun j => [j]) (true_indices_from i mask).
Proof.
  revert i. induction mask as [|b mask IH]; intros i; simpl.
  - reflexivity.
  - destruct b; simpl; rewrite IH; reflexivity.
Qed.

Lemma forallb_rows (l : list nat) :
  forallb (fun row => Nat.eqb (length row) 1) (map (fun j => [j]) l) = true.
Proof. induction l; simpl; auto. Qed.

Lemma concat_rows (l : list nat) : concat (map (fun j => [j]) l) = l.
Proof. induction l; simpl; congruence. Qed.

(** Iterating over the squeezed result of [argwhere]: the indices of the
    true entries, unless there is exactly one of them. *)
Lemma iter_squeeze_argwhere mask :
  iter_int (squeeze (np_argwhere mask)) =
  match true_indices_from 0 mask with
  | [_] => Raise zero_d_error
  | l => Ok l
  end.
Proof.
  unfold np_argwhere. rewrite argwhere_from_rows.
  destruct (true_indices_from 0 mask) as [|x [|y l]].
  - reflexivity.
  - reflexivity.
  - change (map (fun j => [j]) (x :: y :: l))
      with ([x] :: [y] :: map (fun j => [j]) l).
    unfold squeeze.
    change (forallb (fun row => Nat.eqb (length row) 1)
                    ([x] :: [y] :: map (fun j => [j]) l))
      with (forallb (fun row => Nat.eqb (length row) 1)
                    (map (fun j => [j]) l)).
    rewrite forallb_rows. simpl. rewrite concat_rows. reflexivity.
Qed.

Lemma true_indices_from_In mask : forall k i,
  In i (true_indices_from k mask) <->
  (k <= i)%nat /\ nth_error mask (i - k) = Some true.
Proof.
  induction mask as [|b mask IH]; intros k i; simpl.
  - split; [intros [] | intros [_ H]].
    destruct (i - k)%nat; discriminate.
  - assert (Hrec : In i (true_indices_from (S k) mask) <->
                   (k < i)%nat /\ nth_error mask (i - S k) = Some true)
      by (rewrite IH; reflexivity).
    destruct (Nat.eq_dec i k) as [->|Hne].
    + rewrite Nat.sub_diag. simpl.
      destruct b; simpl; rewrite ?Hrec; split; intros H.
      * split; [lia | reflexivity].
      * left. reflexivity.
      * destruct H; lia.
      * destruct H as [_ H]. discriminate.
    + destruct (Nat.le_gt_cases k i) as [Hle|Hgt].
      * replace (i - k)%nat with (S (i - S k)) by lia. simpl.
        destruct b; simpl; rewrite ?Hrec; split; intros H.
        -- destruct H as [H|H]; [congruence|]. split; [lia | apply H].
        -- right. split; [lia | apply H].
        -- split; [lia | apply H].
        -- split; [lia | apply H].
      * destruct b; simpl; rewrite ?Hrec; split; intros H;
           try (destruct H as [H|H]; [congruence|]); destruct H; lia.
Qed.

Lemma true_indices_none mask :
  Forall (fun b => b = false) mask -> forall k, true_indices_from k mask = [].
Proof.
  induction 1 as [|b mask -> _ IH]; intros k; simpl; [reflexivity | apply IH].
Qed.

Lemma rbind_inv {A B} (r : result A) (k : A -> result B) b :
  rbind r k = Ok b -> exists a, r = Ok a /\ k a = Ok b.
Proof.
  destruct r as [a|e]; simpl; [|discriminate]. intros H. exists a. auto.
Qed.

Lemma rmap_Forall2 {A B} (f : A -> result B) l : forall ys,
  rmap f l = Ok ys -> Forall2 (fun x y => f x = Ok y) l ys.
Proof.
  induction l as [|x l IH]; intros ys H; simpl in H.
  - injection H as <-. constructor.
  - apply rbind_inv in H. destruct H as (y & Hy & H).
    apply rbind_inv in H. destruct H as (ys' & Hys & H).
    injection H as <-. constructor; [exact Hy | apply IH, Hys].
Qed.

Lemma rmap_map {A B C} (f : B -> result C) (h : A -> B) l :
  rmap f (map h l) = rmap (fun x => f (h x)) l.
Proof.
  induction l as [|x l IH]; simpl; [reflexivity | rewrite IH; reflexivity].
Qed.

Lemma rmap_determined {A B} (f : A -> result B) (g : A -> B) l : forall ys,
  (forall x y, In x l -> f x = Ok y -> y = g x) ->
  rmap f l = Ok ys -> ys = map g l.
Proof.
  induction l as [|x l IH]; intros ys Hg H; simpl in H.
  - injection H as <-. reflexivity.
  - apply rbind_inv in H. destruct H as (y & Hy & H).
    apply rbind_inv in H. destruct H as (ys' & Hys & H).
    injection H as <-. simpl. f_equal.
    + apply Hg; [left; reflexivity | exact Hy].
    + apply IH; [|exact Hys]. intros x' y' Hx'. apply Hg. right. exact Hx'.
Qed.

Lemma dict_get_NoDup {V} (d : list (string * V)) k v :
  NoDup (keys d) -> In (k, v) d -> dict_get k d = Some v.
Proof.
  induction d as [|[k' v'] d IH]; simpl; intros Hnd Hin; [destruct Hin|].
  inversion Hnd as [|? ? Hnotin Hnd']; subst.
  destruct Hin as [[= -> ->]|Hin].
  - rewrite String.eqb_refl. reflexivity.
  - destruct (String.eqb k k') eqn:E.
    + apply String.eqb_eq in E. subst k'. exfalso. apply Hnotin.
      change k with (fst (k, v)). apply in_map, Hin.
    + apply IH; assumption.
Qed.

(** The ratios [run] computes are those of the entries, in order. *)
Lemma percentage_kept_ratios stats pk :
  NoDup (keys stats) ->
  rmap (kept_ratio stats) (keys stats) = Ok pk -> pk = ratios stats.
Proof.
  intros Hnd H. unfold keys in H. rewrite rmap_map in H.
  apply (rmap_determined _ (fun e => ratio (snd e))) in H; [exact H|].
  intros [p st] y Hin Hy. simpl in *. unfold kept_ratio in Hy.
  rewrite (dict_get_NoDup _ _ _ Hnd Hin) in Hy.
  destruct (Nat.eqb (starting_lines st) 0); [discriminate|].
  injection Hy as <-. reflexivity.
Qed.

(** The block, once the ratios are there. *)
Lemma below_sigs_eq stats pk :
  rmap (kept_ratio stats) (keys stats) = Ok pk ->
  below_sigs stats =
  rbind (match true_indices_from 0 (outlier_mask pk) with
         | [_] => Raise zero_d_error
         | l => Ok l
         end)
        (fun idx => rmap (fun i => match nth_error (keys stats) i with
                                   | Some p => Ok p
                                   | None => Raise IndexError
                                   end) idx).
Proof.
  intros H. unfold below_sigs. cbv zeta. rewrite H.
  unfold rbind at 1. rewrite iter_squeeze_argwhere. reflexivity.
Qed.

Lemma Rltb_true x y : Rltb x y = true <-> (x < y)%R.
Proof.
  unfold Rltb. destruct (Rlt_dec x y); split; intros; auto; discriminate.
Qed.

Lemma Rltb_false x y : Rltb x y = false <-> ~ (x < y)%R.
Proof.
  unfold Rltb. destruct (Rlt_dec x y); split; intros; auto;
    [discriminate | contradiction].
Qed.

(** A run with exactly one ratio below the threshold stops in the
    list comprehension. *)
Lemma below_sigs_single_outlier stats pk i :
  rmap (kept_ratio stats) (keys stats) = Ok pk ->
  true_indices_from 0 (outlier_mask pk) = [i] ->
  below_sigs stats = Raise zero_d_error.
Proof.
  intros Hpk Hone. rewrite (below_sigs_eq _ _ Hpk), Hone. reflexivity.
Qed.

Lemma np_sum_nonneg (a : list R) :
  Forall (fun x => 0 <= x)%R a -> (0 <= np_sum a)%R.
Proof.
  induction 1 as [|x a Hx _ IH]; simpl; [apply Rle_refl | lra].
Qed.

Lemma np_sum_zero (a : list R) :
  Forall (fun x => 0 <= x)%R a -> np_sum a = 0%R ->
  Forall (fun x => x = 0%R) a.
Proof.
  induction 1 as [|x a Hx Ha IH]; simpl; intros H; constructor.
  - pose proof (np_sum_nonneg a Ha). lra.
  - apply IH. pose proof (np_sum_nonneg a Ha). lra.
Qed.

(** A standard deviation of zero puts every entry on the mean. *)
Lemma np_std_zero (a : list R) :
  np_std a = 0%R -> Forall (fun x => x = np_mean a) a.
Proof.
  intros H. destruct a as [|x0 a0]; [constructor|].
  set (a := x0 :: a0) in *.
  set (sq := map (fun x => Rsqr (Rabs (x - np_mean a))) a) in *.
  assert (Hsq : Forall (fun y => 0 <= y)%R sq).
  { apply Forall_forall. intros y Hy. apply in_map_iff in Hy.
    destruct Hy as (x & <- & _). apply Rle_0_sqr. }
  assert (Hn : (0 < INR (length sq))%R).
  { unfold sq, a. rewrite length_map. simpl length. apply lt_0_INR. lia. }
  assert (Hm : (0 <= np_mean sq)%R).
  { unfold np_mean. apply Rmult_le_pos; [apply np_sum_nonneg, Hsq|].
    left. apply Rinv_0_lt_compat, Hn. }
  unfold np_std in H. fold a in H. fold sq in H.
  apply sqrt_eq_0 in H; [|exact Hm].
  assert (Hs : np_sum sq = 0%R).
  { unfold np_mean in H. unfold Rdiv in H.
    apply Rmult_integral in H. destruct H as [H|H]; [exact H|].
    exfalso. apply Rinv_neq_0_compat in H; [exact H|]. lra. }
  pose proof (np_sum_zero sq Hsq Hs) as Hz.
  unfold sq in Hz. rewrite Forall_map in Hz.
  eapply Forall_impl; [|exact Hz]. intros x Hx. simpl in Hx.
  apply Rsqr_0_uniq in Hx.
  destruct (Req_dec (x - np_mean a) 0) as [E|E]; [lra|].
  apply Rabs_no_R0 in E. contradiction.
Qed.

(** C8. If the population standard deviation of the retention ratios is
    zero, the listing of outliers returns and is empty. *)
Theorem no_outlier_when_std_zero :
  forall (stats : StatsDict) (pk : list R),
    rmap (kept_ratio stats) (keys stats) = Ok pk ->
    np_std pk = 0%R ->
    below_sigs stats = Ok [].
Proof.
  intros stats pk Hpk Hstd.
  rewrite (below_sigs_eq _ _ Hpk).
  assert (Hmask : Forall (fun b => b = false) (outlier_mask pk)).
  { unfold outlier_mask. rewrite Forall_map.
    eapply Forall_impl; [|apply (np_std_zero pk Hstd)].
    intros x Hx. simpl in Hx. apply Rltb_false. rewrite Hstd, Hx.
    unfold sigmas. lra. }
  rewrite (true_indices_none _ Hmask). reflexivity.
Qed.

(** *** Selection by the mask *)

Lemma rmap_length {A B} (f : A -> result B) l ys :
  rmap f l = Ok ys -> length ys = length l.
Proof.
  intros H. apply rmap_Forall2 in H. symmetry.
  eapply Forall2_length. exact H.
Qed.

Lemma lookup_true_indices (paths : list string) : forall mask pre,
  length mask = length paths ->
  rmap (fun i => match nth_error (pre ++ paths) i with
                 | Some p => Ok p
                 | None => Raise IndexError
                 end)
       (true_indices_from (length pre) mask) =
  Ok (select mask paths).
Proof.
  induction paths as [|p paths IH]; intros mask pre Hlen.
  - destruct mask; [reflexivity | discriminate].
  - destruct mask as [|b mask]; [discriminate|].
    injection Hlen as Hlen.
    assert (Hrec := IH mask (pre ++ [p]) Hlen).
    rewrite <- app_assoc, length_app in Hrec. simpl in Hrec.
    rewrite Nat.add_1_r in Hrec.
    simpl. destruct b; simpl.
    + rewrite nth_error_app2, Nat.sub_diag by lia. simpl.
      rewrite Hrec. reflexivity.
    + exact Hrec.
Qed.

Lemma below_sigs_with_select (A : FloatOps) (stats : StatsDict) :
  below_sigs_with A stats =
  rbind (rmap (kept_ratio_with A stats) (keys stats))
        (fun pk => match select (outlier_mask_with A pk) (keys stats) with
                   | [_] => Raise zero_d_error
                   | sel => Ok sel
                   end).
Proof.
  unfold below_sigs_with. cbv zeta.
  destruct (rmap (kept_ratio_with A stats) (keys stats)) as [pk|e] eqn:Hpk;
    [|reflexivity].
  unfold rbind at 1 3. rewrite iter_squeeze_argwhere.
  assert (Hlen : length (outlier_mask_with A pk) = length (keys stats)).
  { unfold outlier_mask_with. rewrite length_map.
    eapply rmap_length. exact Hpk. }
  pose proof (lookup_true_indices (keys stats) (outlier_mask_with A pk) []
                Hlen) as Hsel.
  change ([] ++ keys stats) with (keys stats) in Hsel.
  change (length (@nil string)) with 0%nat in Hsel.
  pose proof (rmap_length _ _ _ Hsel) as Hl.
  revert Hsel Hl.
  destruct (true_indices_from 0 (outlier_mask_with A pk)) as [|i [|j idx]];
    intros Hsel Hl.
  - simpl in Hsel. injection Hsel as <-. reflexivity.
  - destruct (select (outlier_mask_with A pk) (keys stats))
      as [|x [|y sel]]; try discriminate. reflexivity.
  - unfold rbind at 1. rewrite Hsel.
    destruct (select (outlier_mask_with A pk) (keys stats))
      as [|x [|y sel]]; try discriminate. reflexivity.
Qed.

(** In exact arithmetic the block is [below_sigs]. *)
Lemma below_sigs_real (stats : StatsDict) :
  below_sigs_with real_ops stats = below_sigs stats.
Proof. reflexivity. Qed.

Lemma below_sigs_select (stats : StatsDict) :
  below_sigs stats =
  rbind (rmap (kept_ratio stats) (keys stats))
        (fun pk => match select (outlier_mask pk) (keys stats) with
                   | [_] => Raise zero_d_error
                   | sel => Ok sel
                   end).
Proof.
  exact (below_sigs_with_select real_ops stats).
Qed.

(** X8. In the arithmetic of the code, whatever its rounding, the
    statistics block is a selection by a boolean mask: it returns the keys
    whose computed ratio compares below the computed
    [avg - sigmas * std], in the order of the groups, except that it raises
    [TypeError] when exactly one key is selected; an error in computing a
    ratio is passed on. *)
Theorem below_sigs_is_mask_selection :
  forall (A : FloatOps) (stats : StatsDict),
    below_sigs_with A stats =
    rbind (rmap (kept_ratio_with A stats) (keys stats))
          (fun pk => match select (outlier_mask_with A pk) (keys stats) with
                     | [_] => Raise zero_d_error
                     | sel => Ok sel
                     end).
Proof.
  exact below_sigs_with_select.
Qed.

Lemma kept_ratios_with (A : FloatOps) (stats : StatsDict) pk :
  NoDup (keys stats) ->
  rmap (kept_ratio_with A stats) (keys stats) = Ok pk ->
  pk = ratios_with A stats.
Proof.
  intros Hnd H. unfold keys in H. rewrite rmap_map in H.
  apply (rmap_determined _ (fun e => ratio_with A (snd e))) in H;
    [exact H|].
  intros [p st] y Hin Hy. simpl in *. unfold kept_ratio_with in Hy.
  rewrite (dict_get_NoDup _ _ _ Hnd Hin) in Hy.
  destruct (Nat.eqb (starting_lines st) 0); [discriminate|].
  injection Hy as <-. reflexivity.
Qed.

Lemma select_map_In {X Y} (g : X -> bool) (h : X -> Y) (l : list X) (y : Y) :
  In y (select (map g l) (map h l)) <->
  exists x, In x l /\ g x = true /\ h x = y.
Proof.
  induction l as [|x l IH]; simpl.
  - split; [intros [] | intros (x & [] & _)].
  - destruct (g x) eqn:Eg; simpl; rewrite IH; split.
    + intros [<-|(z & Hz & Hg & Hh)].
      * exists x. auto.
      * exists z. auto.
    + intros (z & [<-|Hz] & Hg & Hh).
      * left. exact Hh.
      * right. exists z. auto.
    + intros (z & Hz & Hg & Hh). exists z. auto.
    + intros (z & [<-|Hz] & Hg & Hh).
      * congruence.
      * exists z. auto.
Qed.

(** C3, as the code has it.  In the arithmetic of the code, whatever its
    rounding: when the listing of outliers returns, it holds exactly the
    paths whose computed ratio compares strictly below the computed
    [mean - 3 * stddev]; the multiplier is the constant 3 of the code, not
    a field of the configuration, which the block does not read. *)
Theorem below_sigs_threshold :
  forall (A : FloatOps) (stats : StatsDict) (L : list string),
    NoDup (keys stats) ->
    below_sigs_with A stats = Ok L ->
    forall p,
      In p L <->
      exists st,
        In (p, st) stats /\
        f64_lt A (ratio_with A st)
               (f64_sub A (array_mean A (ratios_with A stats))
                  (f64_mul A (f64_of_int A 3)
                     (array_std A (ratios_with A stats)))) = true.
Proof.
  intros A stats L Hnd H p.
  rewrite below_sigs_with_select in H.
  apply rbind_inv in H. destruct H as (pk & Hpk & H).
  apply kept_ratios_with in Hpk; [|exact Hnd]. subst pk.
  assert (HL : L = select (outlier_mask_with A (ratios_with A stats))
                          (keys stats)).
  { destruct (select _ _) as [|x [|y sel]];
      [injection H as <-; reflexivity | discriminate
      | injection H as <-; reflexivity]. }
  subst L. clear H.
  unfold outlier_mask_with, ratios_with, keys. cbv zeta.
  rewrite map_map.
  rewrite (select_map_In
             (fun e => f64_lt A (ratio_with A (snd e))
                (f64_sub A
                   (array_mean A (map (fun e0 => ratio_with A (snd e0)) stats))
                   (f64_mul A (f64_of_int A 3)
                      (array_std A
                         (map (fun e0 => ratio_with A (snd e0)) stats)))))
             fst stats p).
  split.
  - intros ([q st] & Hin & Hlt & Hq). simpl in Hq. subst q.
    exists st. split; assumption.
  - intros (st & Hin & Hlt). exists (p, st). auto.
Qed.

(** *** The whole run *)

Lemma rmap_all_ok {A B} (f : A -> result B) (g : A -> B) l :
  (forall x, In x l -> f x = Ok (g x)) -> rmap f l = Ok (map g l).
Proof.
  induction l as [|x l IH]; intros H; simpl; [reflexivity|].
  rewrite (H x (or_introl eq_refl)). simpl.
  rewrite IH; [reflexivity|]. intros y Hy. apply H. right. exact Hy.
Qed.

Lemma ratios_computed (stats : StatsDict) :
  NoDup (keys stats) ->
  Forall (fun e => starting_lines (snd e) <> 0%nat) stats ->
  rmap (kept_ratio stats) (keys stats) = Ok (ratios stats).
Proof.
  intros Hnd Hpos. unfold keys, ratios. rewrite rmap_map.
  apply rmap_all_ok. intros [p st] Hin. simpl. unfold kept_ratio.
  rewrite (dict_get_NoDup _ _ _ Hnd Hin).
  rewrite Forall_forall in Hpos. specialize (Hpos _ Hin). simpl in Hpos.
  apply Nat.eqb_neq in Hpos. rewrite Hpos. reflexivity.
Qed.

Lemma below_sigs_outcomes (stats : StatsDict) :
  NoDup (keys stats) ->
  Forall (fun e => starting_lines (snd e) <> 0%nat) stats ->
  (exists L, below_sigs stats = Ok L) \/
  below_sigs stats = Raise zero_d_error.
Proof.
  intros Hnd Hpos. rewrite below_sigs_select.
  rewrite (ratios_computed stats Hnd Hpos). simpl.
  destruct (select _ _) as [|x [|y sel]]; eauto.
Qed.

(** X10. Once [load_file] has returned, the run cannot stop before the
    results are written: [postprocess] succeeds on the loaded groups, the
    file is written with the kept records, each of which is the parse of a
    line of the input that passed the thresholds, and [run] then returns
    the output path, unless the listing of outliers raises its
    [TypeError]; no division by zero, missing key or missing attribute can
    occur. *)
Theorem run_after_load :
  forall (split_mining_line : string -> option Z -> result MiningLineResult)
         (utils_compute_overlap : Audio -> Audio -> IntersectMethods -> Q)
         (f : list string) (s : Self) (sources : Sources) (s1 : Self),
    load_file split_mining_line f s = (Ok sources, s1) ->
    exists valid stats,
      postprocess utils_compute_overlap sources s1 =
      (Ok (valid, stats), s1) /\
      keys stats = keys sources /\
      written (run split_mining_line utils_compute_overlap f s) =
      Some (out_path s1, valid) /\
      final_self (run split_mining_line utils_compute_overlap f s) = s1 /\
      (returned (run split_mining_line utils_compute_overlap f s) =
       Ok (out_path s1) \/
       returned (run split_mining_line utils_compute_overlap f s) =
       Raise zero_d_error) /\
      (forall r, In r valid ->
         exists line,
           In line f /\ split_mining_line line None = Ok r /\
           line_passes_thresholds r s1 = (Ok true, s1)).
Proof.
  intros split ov f s sources s1 H.
  pose proof (load_file_groups_audio split f s sources s1 H) as Ha.
  destruct (load_file_groups_of split f s sources s1 H)
    as (rs & _ & _ & _ & Hnd & Hne).
  destruct (postprocess_loop_total ov s1 sources [] [] Ha (Forall_nil _))
    as (valid & stats & E & Hv).
  change (postprocess_loop ov sources [] [] s1)
    with (postprocess ov sources s1) in E.
  destruct (postprocess_shape ov sources s1 valid stats s1 Hnd Hne E)
    as (Hk & Hpos & Hfrom).
  destruct (total_src_time_total s1 valid 0%Q Hv) as (t & Et).
  exists valid, stats.
  split; [exact E|]. split; [exact Hk|].
  assert (Hnd' : NoDup (keys stats)) by (rewrite Hk; exact Hnd).
  unfold run. rewrite H, E.
  destruct (below_sigs_outcomes stats Hnd' Hpos) as [[L ->]| ->].
  - rewrite Et. simpl. repeat split; auto.
    intros r Hr. destruct (Hfrom r Hr) as (p & l & Hin & Hrl).
    destruct (load_file_grouped split f s sources s1 H p l r Hin Hrl)
      as (_ & Hpass & Hline).
    destruct Hline as (line & Hl & Hs). exists line. auto.
  - simpl. repeat split; auto.
    intros r Hr. destruct (Hfrom r Hr) as (p & l & Hin & Hrl).
    destruct (load_file_grouped split f s sources s1 H p l r Hin Hrl)
      as (_ & Hpass & Hline).
    destruct Hline as (line & Hl & Hs). exists line. auto.
Qed.

(** X11. When every line parses and none passes the thresholds, no group
    is created, and the run ends well: it writes an empty file and lists
    no outlier. *)
Theorem run_nothing_passes :
  forall (split_mining_line : string -> option Z -> result MiningLineResult)
         (utils_compute_overlap : Audio -> Audio -> IntersectMethods -> Q)
         (f : list string) (s : Self) (sources : Sources) (s1 : Self),
    load_file split_mining_line f s = (Ok sources, s1) ->
    (forall line r,
        In line f -> split_mining_line line None = Ok r ->
        line_passes_thresholds r s1 <> (Ok true, s1)) ->
    sources = [] /\
    returned (run split_mining_line utils_compute_overlap f s) =
    Ok (out_path s1) /\
    written (run split_mining_line utils_compute_overlap f s) =
    Some (out_path s1, []) /\
    warned (run split_mining_line utils_compute_overlap f s) = Some [].
Proof.
  intros split ov f s sources s1 H Hnone.
  assert (Hs : sources = []).
  { destruct (load_file_groups_of split f s sources s1 H)
      as (rs & _ & _ & _ & _ & Hne).
    destruct sources as [|[p l] rest]; [reflexivity|]. exfalso.
    inversion Hne as [|? ? Hl _]; subst. simpl in Hl.
    destruct l as [|r l]; [contradiction|].
    destruct (load_file_grouped split f s _ s1 H p (r :: l) r
                (or_introl eq_refl) (or_introl eq_refl))
      as (_ & Hpass & line & Hin & Hsp).
    exact (Hnone line r Hin Hsp Hpass). }
  split; [exact Hs|]. subst sources.
  unfold run. rewrite H. repeat split; reflexivity.
Qed.

(** ** The example files *)

(** The spec's example scenario: the second record replaces the first, the
    third is appended. *)
Example spec_scenario :
  postprocess fraction_overlap example_sources example_loaded =
  (Ok ([rec_second; rec_third], [("a.wav", mkStat 3 2)]), example_loaded).
Proof. vm_compute. reflexivity. Qed.

Example example_load :
  load_file example_split example_file example_self =
  (Ok example_sources, example_loaded).
Proof. vm_compute. reflexivity. Qed.

(** *** Instances of the theorems *)

Lemma line_passes_thresholds_iff_witness :
  fst (load_input rec_second example_self) =
  Ok (parse_column None (ColAudio "a.wav" 5 10)) /\
  exists b : bool,
    line_passes_thresholds rec_second example_self = (Ok b, example_self) /\
    (b = true <->
       (self_mining_threshold example_self < score rec_second)%Q /\
       (inject_Z (self_min_audio_length example_self) <
        inject_Z (10 - 5) / inject_Z 1)%Q) /\
    ((score rec_second == self_mining_threshold example_self)%Q ->
     b = false) /\
    ((inject_Z (10 - 5) / inject_Z 1 ==
      inject_Z (self_min_audio_length example_self))%Q -> b = false).
Proof.
  split; [reflexivity|].
  apply (line_passes_thresholds_iff example_self rec_second
           (mkAudio "a.wav" 5 (inject_Z (10 - 5) / inject_Z 1))).
  reflexivity.
Defined.

Lemma example_has_audio :
  Forall (has_audio example_loaded) [rec_third; rec_first; rec_second].
Proof.
  repeat constructor; eexists; reflexivity.
Qed.

Lemma dedup_group_spec_witness :
  Forall (has_audio example_loaded) [rec_third; rec_first; rec_second] /\
  exists line_list' kept,
    dedup_group fraction_overlap [rec_third; rec_first; rec_second]
                example_loaded =
    (Ok (line_list', kept), example_loaded) /\
    Permutation [rec_third; rec_first; rec_second] line_list' /\
    sorted_contract (start_key example_loaded)
                    [rec_third; rec_first; rec_second] line_list' /\
    spec_scan fraction_overlap example_loaded line_list' [] kept /\
    (forall pre k r,
        dedup_step fraction_overlap (pre ++ [k]) r example_loaded =
        (rbind (fst (dedup_step fraction_overlap [k] r example_loaded))
               (fun out => Ok (pre ++ out)), example_loaded)).
Proof.
  split; [exact example_has_audio|].
  apply (dedup_group_spec fraction_overlap example_loaded
           [rec_third; rec_first; rec_second] example_has_audio).
Defined.

Lemma kept_lines_le_starting_lines_witness :
  postprocess fraction_overlap example_sources example_loaded =
  (Ok ([rec_second; rec_third], [("a.wav", mkStat 3 2)]), example_loaded) /\
  forall p st,
    In (p, st) [("a.wav", mkStat 3 2)] ->
    (kept_lines st <= starting_lines st)%nat /\
    exists line_list line_list' kept,
      In (p, line_list) example_sources /\
      dedup_group fraction_overlap line_list example_loaded =
      (Ok (line_list', kept), example_loaded) /\
      starting_lines st = length line_list /\
      kept_lines st = length kept.
Proof.
  split; [exact spec_scenario|].
  apply (kept_lines_le_starting_lines fraction_overlap example_loaded
           example_sources _ _ _ spec_scenario).
Defined.

Lemma postprocess_deterministic_witness :
  snd (postprocess fraction_overlap example_sources example_loaded) =
  example_loaded /\
  postprocess fraction_overlap example_sources
    (snd (postprocess fraction_overlap example_sources example_loaded)) =
  postprocess fraction_overlap example_sources example_loaded /\
  (sorted_contract (start_key example_loaded)
     [rec_third; rec_first; rec_second] [rec_first; rec_second; rec_third] /\
   sorted (start_key example_loaded) [rec_third; rec_first; rec_second] =
   [rec_first; rec_second; rec_third]) /\
  (spec_step fraction_overlap example_loaded [rec_first] rec_second
             [rec_second] /\
   forall k2,
     spec_step fraction_overlap example_loaded [rec_first] rec_second k2 ->
     [rec_second] = k2).
Proof.
  destruct (postprocess_deterministic fraction_overlap example_loaded
              example_sources) as (H1 & H2 & H3 & H4).
  assert (C : sorted_contract (start_key example_loaded)
                [rec_third; rec_first; rec_second]
                [rec_first; rec_second; rec_third]).
  { change [rec_first; rec_second; rec_third]
      with (sorted (start_key example_loaded)
                   [rec_third; rec_first; rec_second]).
    apply sorted_meets_contract. }
  assert (S : spec_step fraction_overlap example_loaded [rec_first]
                        rec_second [rec_second]).
  { apply (spec_replace fraction_overlap example_loaded [] rec_first
             rec_second (mkAudio "a.wav" 0 (inject_Z (20 - 0) / inject_Z 1))
             (mkAudio "a.wav" 5 (inject_Z (10 - 5) / inject_Z 1)));
      reflexivity. }
  split; [exact H1|]. split; [exact H2|]. split; [split|split].
  - exact C.
  - symmetry. apply (H3 _ _ _ C). apply sorted_meets_contract.
  - exact S.
  - intros k2. apply (H4 _ _ _ _ S).
Defined.

Lemma load_file_grouping_invariant_witness :
  load_file example_split example_file example_self =
  (Ok example_sources, example_loaded) /\
  forall p line_list r,
    In (p, line_list) example_sources -> In r line_list ->
    (exists a, fst (load_input r example_loaded) = Ok (AudioItem a) /\
               path a = p) /\
    line_passes_thresholds r example_loaded = (Ok true, example_loaded) /\
    exists line, In line example_file /\ example_split line None = Ok r.
Proof.
  split; [exact example_load|].
  apply (load_file_grouping_invariant example_split example_file example_self
           example_sources example_loaded example_load).
Defined.

(** *** The statistics of the example files *)

Lemma sqrt_lt_of_sq (x y : R) :
  (0 <= x)%R -> (0 < y)%R -> (x < y * y)%R -> (sqrt x < y)%R.
Proof.
  intros Hx Hy H. rewrite <- (sqrt_square y) by lra.
  apply sqrt_lt_1_alt. lra.
Qed.

Lemma outlier_ratios :
  rmap (kept_ratio outlier_stats) (keys outlier_stats) =
  Ok (ratios outlier_stats).
Proof. reflexivity. Qed.

Lemma outlier_mean : np_mean (ratios outlier_stats) = (21 / 22)%R.
Proof.
  unfold np_mean, np_sum, ratios, ratio. simpl. lra.
Qed.

Lemma outlier_std_bounds :
  (0 <= np_std (ratios outlier_stats) < 5 / 33)%R.
Proof.
  unfold np_std. split; [apply sqrt_pos|].
  rewrite outlier_mean.
  assert (E : np_mean (map (fun x => Rsqr (Rabs (x - 21 / 22)))
                           (ratios outlier_stats)) = (5 / 242)%R).
  { unfold np_mean, np_sum, ratios, ratio. simpl.
    rewrite <- !Rsqr_abs. unfold Rsqr. lra. }
  rewrite E. apply sqrt_lt_of_sq; lra.
Qed.

Lemma outlier_mask_eq :
  outlier_mask (ratios outlier_stats) =
  [false; false; false; false; false; false; false; false; false; false;
   true].
Proof.
  unfold outlier_mask. rewrite outlier_mean.
  pose proof outlier_std_bounds as [H0 H1].
  set (std := np_std (ratios outlier_stats)) in *.
  assert (F : Rltb (1 / 1) (21 / 22 - sigmas * std) = false)
    by (apply Rltb_false; unfold sigmas; lra).
  assert (T : Rltb (1 / (1 + 1)) (21 / 22 - sigmas * std) = true)
    by (apply Rltb_true; unfold sigmas; lra).
  unfold ratios, ratio. simpl. rewrite F, T. reflexivity.
Qed.

(** The path kept at one half is below the threshold, and it is the only
    one: the listing stops. *)
Lemma outlier_below_sigs : below_sigs outlier_stats = Raise zero_d_error.
Proof.
  apply (below_sigs_single_outlier _ _ 10%nat outlier_ratios).
  rewrite outlier_mask_eq. reflexivity.
Qed.

Lemma outlier_flagged : flagged_at 3 outlier_stats "k.wav".
Proof.
  exists (mkStat 2 1). split; [simpl; tauto|].
  rewrite outlier_mean. pose proof outlier_std_bounds as [H0 H1].
  set (std := np_std (ratios outlier_stats)) in *.
  unfold ratio. simpl. lra.
Qed.

Lemma two_ratios :
  rmap (kept_ratio two_stats) (keys two_stats) = Ok (ratios two_stats).
Proof. reflexivity. Qed.

Lemma two_mean : np_mean (ratios two_stats) = (3 / 4)%R.
Proof.
  unfold np_mean, np_sum, ratios, ratio. simpl. lra.
Qed.

Lemma two_std : np_std (ratios two_stats) = (1 / 4)%R.
Proof.
  unfold np_std. rewrite two_mean.
  assert (E : np_mean (map (fun x => Rsqr (Rabs (x - 3 / 4)))
                           (ratios two_stats)) = (1 / 4 * (1 / 4))%R).
  { unfold np_mean, np_sum, ratios, ratio. simpl.
    rewrite <- !Rsqr_abs. unfold Rsqr. lra. }
  rewrite E. apply sqrt_square. lra.
Qed.

Lemma two_below_sigs : below_sigs two_stats = Ok [].
Proof.
  rewrite (below_sigs_eq _ _ two_ratios).
  assert (Hm : outlier_mask (ratios two_stats) = [false; false]).
  { unfold outlier_mask. rewrite two_mean, two_std.
    assert (F1 : Rltb (1 / 1) (3 / 4 - sigmas * (1 / 4)) = false)
      by (apply Rltb_false; unfold sigmas; lra).
    assert (F2 : Rltb (1 / (1 + 1)) (3 / 4 - sigmas * (1 / 4)) = false)
      by (apply Rltb_false; unfold sigmas; lra).
    unfold ratios, ratio. simpl. rewrite F1, F2. reflexivity. }
  rewrite Hm. reflexivity.
Qed.

Lemma two_NoDup : NoDup (keys two_stats).
Proof.
  repeat constructor; simpl; intuition discriminate.
Qed.

Lemma even_ratios :
  rmap (kept_ratio even_stats) (keys even_stats) = Ok (ratios even_stats).
Proof. reflexivity. Qed.

Lemma even_std : np_std (ratios even_stats) = 0%R.
Proof.
  unfold np_std.
  assert (M : np_mean (ratios even_stats) = 1%R).
  { unfold np_mean, np_sum, ratios, ratio. simpl. lra. }
  rewrite M.
  assert (E : np_mean (map (fun x => Rsqr (Rabs (x - 1)))
                           (ratios even_stats)) = 0%R).
  { unfold np_mean, np_sum, ratios, ratio. simpl.
    rewrite <- !Rsqr_abs. unfold Rsqr. lra. }
  rewrite E. apply sqrt_0.
Qed.

Lemma outlier_pipeline :
  exists sources s1 valid,
    load_file outlier_split outlier_file example_self = (Ok sources, s1) /\
    postprocess fraction_overlap sources s1 =
    (Ok (valid, outlier_stats), s1) /\
    length valid = 11%nat.
Proof.
  eexists. eexists. eexists. split; [|split].
  - vm_compute. reflexivity.
  - vm_compute. reflexivity.
  - reflexivity.
Qed.

(** C2, at a file the module can be given.  Eleven audio files pass the
    thresholds, ten with one segment and one with two overlapping segments.
    Every group has at least one starting line; one ratio only is below
    [mean - 3 * std], and the run stops with a [TypeError] in the list
    comprehension over the squeezed [argwhere], after the results were
    written. *)
Theorem single_outlier_stops_run :
  Forall (fun e => (1 <= starting_lines (snd e))%nat) outlier_stats /\
  (exists sources s1 valid,
      load_file outlier_split outlier_file example_self = (Ok sources, s1) /\
      postprocess fraction_overlap sources s1 =
      (Ok (valid, outlier_stats), s1) /\
      written (run outlier_split fraction_overlap outlier_file example_self)
      = Some (out_path s1, valid)) /\
  below_sigs outlier_stats = Raise zero_d_error /\
  returned (run outlier_split fraction_overlap outlier_file example_self) =
  Raise zero_d_error.
Proof.
  destruct outlier_pipeline as (sources & s1 & valid & EL & EP & _).
  split; [repeat constructor|]. split; [|split].
  - exists sources, s1, valid. split; [exact EL|]. split; [exact EP|].
    unfold run. rewrite EL, EP, outlier_below_sigs. reflexivity.
  - exact outlier_below_sigs.
  - unfold run. rewrite EL, EP, outlier_below_sigs. reflexivity.
Qed.

Lemma pair_NoDup : NoDup (keys pair_stats).
Proof.
  repeat constructor; simpl; intuition discriminate.
Qed.

Lemma pair_ratios :
  rmap (kept_ratio pair_stats) (keys pair_stats) = Ok (ratios pair_stats).
Proof. reflexivity. Qed.

Lemma pair_mean : np_mean (ratios pair_stats) = (21 / 22)%R.
Proof.
  unfold np_mean, np_sum, ratios, ratio. simpl. lra.
Qed.

Lemma pair_std_bounds : (0 <= np_std (ratios pair_stats) < 5 / 33)%R.
Proof.
  unfold np_std. split; [apply sqrt_pos|].
  rewrite pair_mean.
  assert (E : np_mean (map (fun x => Rsqr (Rabs (x - 21 / 22)))
                           (ratios pair_stats)) = (5 / 242)%R).
  { unfold np_mean, np_sum, ratios, ratio. simpl.
    rewrite <- !Rsqr_abs. unfold Rsqr. lra. }
  rewrite E. apply sqrt_lt_of_sq; lra.
Qed.

Lemma pair_mask_eq :
  outlier_mask (ratios pair_stats) =
  [false; false; false; false; false; false; false; false; false; false;
   false; false; false; false; false; false; false; false; false; false;
   true; true].
Proof.
  unfold outlier_mask. rewrite pair_mean.
  pose proof pair_std_bounds as [H0 H1].
  set (std := np_std (ratios pair_stats)) in *.
  assert (F : Rltb (1 / 1) (21 / 22 - sigmas * std) = false)
    by (apply Rltb_false; unfold sigmas; lra).
  assert (T : Rltb (1 / (1 + 1)) (21 / 22 - sigmas * std) = true)
    by (apply Rltb_true; unfold sigmas; lra).
  unfold ratios, ratio. simpl. rewrite F, T. reflexivity.
Qed.

(** The two files kept at one half are listed, in the order of the
    groups. *)
Lemma pair_below_sigs :
  below_sigs_with real_ops pair_stats = Ok ["k1.wav"; "k2.wav"].
Proof.
  rewrite below_sigs_real, (below_sigs_eq _ _ pair_ratios), pair_mask_eq.
  reflexivity.
Qed.

Lemma below_sigs_threshold_witness :
  NoDup (keys pair_stats) /\
  below_sigs_with real_ops pair_stats = Ok ["k1.wav"; "k2.wav"] /\
  forall p,
    In p ["k1.wav"; "k2.wav"] <->
    exists st,
      In (p, st) pair_stats /\
      f64_lt real_ops (ratio_with real_ops st)
             (f64_sub real_ops (array_mean real_ops
                                  (ratios_with real_ops pair_stats))
                (f64_mul real_ops (f64_of_int real_ops 3)
                   (array_std real_ops
                      (ratios_with real_ops pair_stats)))) = true.
Proof.
  split; [exact pair_NoDup|]. split; [exact pair_below_sigs|].
  apply (below_sigs_threshold real_ops pair_stats ["k1.wav"; "k2.wav"]
           pair_NoDup pair_below_sigs).
Defined.

(** C3 as stated fails twice.  A multiplier other than 3 is not honoured:
    with [k = 0] the file kept at one half is below the mean, and the code
    lists nothing.  And with the multiplier 3 itself, a path below the
    threshold is not listed when it is the only one. *)
Lemma configured_multiplier_counterexample :
  (flagged_at 0 two_stats "b.wav" /\ below_sigs two_stats = Ok []) /\
  (flagged_at 3 outlier_stats "k.wav" /\
   forall L, below_sigs outlier_stats <> Ok L).
Proof.
  split; split.
  - exists (mkStat 2 1). split; [simpl; tauto|].
    rewrite two_mean, two_std. unfold ratio. simpl. lra.
  - exact two_below_sigs.
  - exact outlier_flagged.
  - intros L. rewrite outlier_below_sigs. discriminate.
Qed.

Lemma no_outlier_when_std_zero_witness :
  rmap (kept_ratio even_stats) (keys even_stats) = Ok (ratios even_stats) /\
  np_std (ratios even_stats) = 0%R /\
  below_sigs even_stats = Ok [].
Proof.
  split; [exact even_ratios|]. split; [exact even_std|].
  apply (no_outlier_when_std_zero even_stats (ratios even_stats)
           even_ratios even_std).
Defined.

Lemma text_only_record_aborts_run_witness :
  (example_split "0.7|hello|world" (sampling_factor (config example_self)) =
   Ok rec_text /\
   returned (run example_split fraction_overlap text_first_file example_self)
   = Raise (ValueError
       ("At least one item needs to be an audio sample. Received: "
        ++ type_repr (src rec_text) ++ " / " ++ type_repr (tgt rec_text)
        ++ newline ++ "Input: " ++ "0.7|hello|world")%string) /\
   written (run example_split fraction_overlap text_first_file example_self)
   = None /\
   warned (run example_split fraction_overlap text_first_file example_self)
   = None) /\
  (In "0.7|hello|world" text_file /\
   example_split "0.7|hello|world" None = Ok rec_text /\
   exists e,
     returned (run example_split fraction_overlap text_file example_self) =
     Raise e /\
     written (run example_split fraction_overlap text_file example_self) =
     None /\
     warned (run example_split fraction_overlap text_file example_self) =
     None).
Proof.
  split.
  - split; [reflexivity|].
    apply (proj1 (text_only_record_aborts_run example_split fraction_overlap
                    text_first_file example_self)
                 "0.7|hello|world" ["0.5|a.wav 0 20|first"] rec_text);
      reflexivity.
  - split; [simpl; tauto|]. split; [reflexivity|].
    apply (proj2 (text_only_record_aborts_run example_split fraction_overlap
                    text_file example_self)
                 "0.7|hello|world" rec_text);
      [simpl; tauto | reflexivity | reflexivity | reflexivity].
Defined.

(** C4 as stated fails past the first line: the second line of [text_file]
    has two text items, and what stops the run is the attribute access
    [.path] on a [Text], an error that does not carry the line. *)
Lemma later_text_record_counterexample :
  nth_error text_file 1 = Some "0.7|hello|world" /\
  example_split "0.7|hello|world" None = Ok rec_text /\
  isinstance_Audio (src rec_text) = false /\
  isinstance_Audio (tgt rec_text) = false /\
  returned (run example_split fraction_overlap text_file example_self) =
  Raise (AttributeError "Text" "path") /\
  forall msg,
    returned (run example_split fraction_overlap text_file example_self) <>
    Raise (ValueError msg).
Proof.
  assert (E : load_file example_split text_file example_self =
              (Raise (AttributeError "Text" "path"),
               incr_file_lines (incr_file_lines
                 (incr_file_lines example_self))))
    by (vm_compute; reflexivity).
  assert (R : returned (run example_split fraction_overlap text_file
                            example_self) =
              Raise (AttributeError "Text" "path"))
    by (unfold run; rewrite E; reflexivity).
  split; [reflexivity|]. split; [reflexivity|].
  split; [reflexivity|]. split; [reflexivity|].
  split; [exact R|].
  intros msg. rewrite R. discriminate.
Qed.


(** *** Instances of the further properties *)

Lemma load_file_object_state_witness :
  load_file example_split [] example_self =
  (Raise (ValueError ("File " ++ mining_result_path (config example_self)
                      ++ " is empty.")%string), example_self) /\
  load_file example_split example_file example_self =
  (Ok example_sources, example_loaded) /\
  file_lines example_loaded =
  S (file_lines example_self + length example_file)%nat /\
  src_attr example_loaded = attr_src.
Proof.
  destruct (load_file_object_state example_split [] example_self)
    as [H0 _].
  destruct (load_file_object_state example_split example_file example_self)
    as [_ H1].
  destruct (H1 _ _ example_load) as (Hn & _ & _ & _ & _).
  split; [exact (H0 eq_refl)|]. split; [exact example_load|].
  split; [exact Hn | reflexivity].
Defined.

Lemma load_file_groups_by_path_witness :
  load_file example_split example_file example_self =
  (Ok example_sources, example_loaded) /\
  exists rs,
    rmap (fun l => example_split l None) example_file = Ok rs /\
    (forall q,
        group_or_empty q example_sources =
        filter (fun r => passes_true example_loaded r &&
                         path_is example_loaded q r) rs) /\
    NoDup (keys example_sources) /\
    Forall (fun e => snd e <> []) example_sources.
Proof.
  split; [exact example_load|].
  apply (load_file_groups_by_path example_split example_file example_self
           example_sources example_loaded example_load).
Defined.

Lemma example_dedup_group :
  dedup_group fraction_overlap [rec_third; rec_first; rec_second]
              example_loaded =
  (Ok ([rec_first; rec_second; rec_third], [rec_second; rec_third]),
   example_loaded).
Proof. vm_compute. reflexivity. Qed.

Lemma dedup_group_keeps_subsequence_witness :
  dedup_group fraction_overlap [rec_third; rec_first; rec_second]
              example_loaded =
  (Ok ([rec_first; rec_second; rec_third], [rec_second; rec_third]),
   example_loaded) /\
  subseq [rec_second; rec_third] [rec_first; rec_second; rec_third] /\
  StronglySorted
    (fun x y => start_key example_loaded x <= start_key example_loaded y)
    [rec_second; rec_third].
Proof.
  split; [exact example_dedup_group|].
  destruct (dedup_group_keeps_subsequence fraction_overlap _ _ _ _ _
              example_dedup_group) as (A & _ & B & _).
  split; assumption.
Defined.

Lemma no_conflict_has_audio :
  Forall (has_audio example_loaded) [rec_third; rec_second].
Proof. repeat constructor; eexists; reflexivity. Qed.

Lemma no_conflict_adjacent :
  forall pre x y post ax ay,
    sorted (start_key example_loaded) [rec_third; rec_second] =
    pre ++ x :: y :: post ->
    audio_of example_loaded x = Some ax ->
    audio_of example_loaded y = Some ay ->
    (overlap_of fraction_overlap example_loaded ax ay <=
     max_overlap (config example_loaded))%Q.
Proof.
  intros pre x y post ax ay E Hx Hy.
  change (sorted (start_key example_loaded) [rec_third; rec_second])
    with [rec_second; rec_third] in E.
  destruct pre as [|a [|b pre]].
  - injection E as <- <- _.
    injection Hx as <-. injection Hy as <-.
    vm_compute. discriminate.
  - injection E as _ _ E. discriminate.
  - injection E as _ _ E. destruct pre; discriminate.
Qed.

Lemma dedup_group_without_conflict_witness :
  Forall (has_audio example_loaded) [rec_third; rec_second] /\
  dedup_group fraction_overlap [rec_third; rec_second] example_loaded =
  (Ok (sorted (start_key example_loaded) [rec_third; rec_second],
       sorted (start_key example_loaded) [rec_third; rec_second]),
   example_loaded).
Proof.
  split; [exact no_conflict_has_audio|].
  apply (dedup_group_without_conflict fraction_overlap
           [rec_third; rec_second] example_loaded no_conflict_has_audio
           no_conflict_adjacent).
Defined.

Lemma best_record_is_kept_witness :
  Permutation [rec_third; rec_first; rec_second]
              (rec_second :: [rec_third; rec_first]) /\
  (forall y, In y [rec_third; rec_first] ->
             (score y < score rec_second)%Q) /\
  In rec_second [rec_second; rec_third].
Proof.
  assert (P : Permutation [rec_third; rec_first; rec_second]
                          (rec_second :: [rec_third; rec_first])).
  { apply Permutation_sym.
    apply (Permutation_cons_append [rec_third; rec_first] rec_second). }
  assert (B : forall y, In y [rec_third; rec_first] ->
                        (score y < score rec_second)%Q).
  { intros y [<-|[<-|[]]]; vm_compute; reflexivity. }
  split; [exact P|]. split; [exact B|].
  apply (best_record_is_kept fraction_overlap _ _ _ _ _ rec_second
           [rec_third; rec_first] example_dedup_group P B).
Defined.

Lemma line_passes_thresholds_monotone_witness :
  src_attr example_self = src_attr strict_self /\
  (self_mining_threshold example_self <=
   self_mining_threshold strict_self)%Q /\
  (self_min_audio_length example_self <=
   self_min_audio_length strict_self)%Z /\
  line_passes_thresholds rec_second strict_self = (Ok true, strict_self) /\
  line_passes_thresholds rec_second example_self = (Ok true, example_self).
Proof.
  assert (Ht : (self_mining_threshold example_self <=
                self_mining_threshold strict_self)%Q)
    by (vm_compute; discriminate).
  assert (Hm : (self_min_audio_length example_self <=
                self_min_audio_length strict_self)%Z)
    by (vm_compute; discriminate).
  assert (Hp : line_passes_thresholds rec_second strict_self =
               (Ok true, strict_self)) by reflexivity.
  split; [reflexivity|]. split; [exact Ht|]. split; [exact Hm|].
  split; [exact Hp|].
  apply (line_passes_thresholds_monotone rec_second example_self
           strict_self eq_refl Ht Hm Hp).
Defined.

Lemma example_sources_NoDup : NoDup (keys example_sources).
Proof. repeat constructor. intros []. Qed.

Lemma postprocess_group_by_group_witness :
  NoDup (keys example_sources) /\
  postprocess fraction_overlap example_sources example_loaded =
  (Ok ([rec_second; rec_third], [("a.wav", mkStat 3 2)]), example_loaded) /\
  exists results,
    Forall2 (fun g r => dedup_group fraction_overlap (snd g) example_loaded
                        = (Ok r, example_loaded))
            example_sources results /\
    [rec_second; rec_third] = concat (map snd results) /\
    [("a.wav", mkStat 3 2)] =
    combine (keys example_sources) (map stat_of results) /\
    keys [("a.wav", mkStat 3 2)] = keys example_sources.
Proof.
  split; [exact example_sources_NoDup|]. split; [exact spec_scenario|].
  apply (postprocess_group_by_group fraction_overlap example_sources
           example_loaded _ _ _ example_sources_NoDup spec_scenario).
Defined.

Lemma run_after_load_witness :
  load_file example_split example_file example_self =
  (Ok example_sources, example_loaded) /\
  exists valid stats,
    postprocess fraction_overlap example_sources example_loaded =
    (Ok (valid, stats), example_loaded) /\
    keys stats = keys example_sources /\
    written (run example_split fraction_overlap example_file example_self) =
    Some (out_path example_loaded, valid) /\
    final_self (run example_split fraction_overlap example_file
                    example_self) = example_loaded /\
    (returned (run example_split fraction_overlap example_file
                   example_self) = Ok (out_path example_loaded) \/
     returned (run example_split fraction_overlap example_file
                   example_self) = Raise zero_d_error) /\
    (forall r, In r valid ->
       exists line,
         In line example_file /\ example_split line None = Ok r /\
         line_passes_thresholds r example_loaded =
         (Ok true, example_loaded)).
Proof.
  split; [exact example_load|].
  apply (run_after_load example_split fraction_overlap example_file
           example_self example_sources example_loaded example_load).
Defined.

Lemma closed_load :
  load_file example_split example_file closed_self = (Ok [], closed_loaded).
Proof. vm_compute. reflexivity. Qed.

Lemma closed_none_passes :
  forall line r,
    In line example_file -> example_split line None = Ok r ->
    line_passes_thresholds r closed_loaded <> (Ok true, closed_loaded).
Proof.
  intros line r [<-|[<-|[<-|[]]]] E; vm_compute in E; injection E as <-;
    vm_compute; discriminate.
Qed.

Lemma run_nothing_passes_witness :
  load_file example_split example_file closed_self = (Ok [], closed_loaded)
  /\
  returned (run example_split fraction_overlap example_file closed_self) =
  Ok (out_path closed_loaded) /\
  written (run example_split fraction_overlap example_file closed_self) =
  Some (out_path closed_loaded, []) /\
  warned (run example_split fraction_overlap example_file closed_self) =
  Some [].
Proof.
  split; [exact closed_load|].
  destruct (run_nothing_passes example_split fraction_overlap example_file
              closed_self [] closed_loaded closed_load closed_none_passes)
    as (_ & A & B & C).
  repeat split; assumption.
Defined.

Lemma text_load :
  load_file example_split text_file example_self =
  (Raise (AttributeError "Text" "path"),
   incr_file_lines (incr_file_lines (incr_file_lines example_self))).
Proof. vm_compute. reflexivity. Qed.

Lemma load_file_errors_witness :
  load_file example_split text_file example_self =
  (Raise (AttributeError "Text" "path"),
   incr_file_lines (incr_file_lines (incr_file_lines example_self))) /\
  ((text_file = [] /\
    AttributeError "Text" "path" =
    ValueError ("File " ++ mining_result_path (config example_self)
                ++ " is empty.")%string) \/
   (exists line rest,
       text_file = line :: rest /\
       (example_split line (sampling_factor (config example_self)) =
        Raise (AttributeError "Text" "path") \/
        exists mr,
          example_split line (sampling_factor (config example_self)) =
          Ok mr /\
          which_object_audio (src mr) (tgt mr) line =
          Raise (AttributeError "Text" "path"))) \/
   (exists line,
       In line text_file /\
       example_split line None = Raise (AttributeError "Text" "path")) \/
   (exists line mr t,
       In line text_file /\ example_split line None = Ok mr /\
       pick (incr_file_lines (incr_file_lines
               (incr_file_lines example_self))) mr = TextItem t /\
       AttributeError "Text" "path" = AttributeError "Text" "path")).
Proof.
  split; [exact text_load|].
  apply (load_file_errors example_split text_file example_self _ _
           text_load).
Defined.

Lemma example_sources_nonempty :
  Forall (fun g : string * list MiningLineResult => snd g <> [])
         example_sources.
Proof. repeat constructor. discriminate. Qed.

Lemma retention_ratio_bounds_witness :
  NoDup (keys example_sources) /\
  Forall (fun g : string * list MiningLineResult => snd g <> [])
         example_sources /\
  postprocess fraction_overlap example_sources example_loaded =
  (Ok ([rec_second; rec_third], [("a.wav", mkStat 3 2)]), example_loaded) /\
  Forall (fun e =>
            (1 <= kept_lines (snd e) <= starting_lines (snd e))%nat /\
            (0 < ratio (snd e) <= 1)%R) [("a.wav", mkStat 3 2)].
Proof.
  split; [exact example_sources_NoDup|].
  split; [exact example_sources_nonempty|].
  split; [exact spec_scenario|].
  apply (retention_ratio_bounds fraction_overlap example_sources
           example_loaded _ _ _ example_sources_NoDup
           example_sources_nonempty spec_scenario).
Defined.


(** *** The sampling factor and the first line *)




